(** * build_json.py: the index builder, embedded and verified

  The program walks two directory trees (one per language), collects the
  files [video<n>/case<m>.html] and writes one JSON document.

  Platform and input conventions of the embedding:
  - pathlib is read with its POSIX flavour ([PurePosixPath]): [glob]
    matches names case-sensitively and paths compare component by
    component, each component by character code;
  - file names are ASCII strings: [\d] is the class 0-9 and
    [re.IGNORECASE] folds A-Z onto a-z;
  - the tree holds regular files and directories only (no symbolic
    links), so [Path.resolve] leaves a normalised absolute path as it is. *)

From stdpp Require Import gmap strings list fin_maps pretty sorting.
From Stdlib Require Import Strings.String Strings.Ascii NArith.

Set Warnings "-register-all".
#[local] Open Scope N_scope.

(** ** Characters and strings *)

Module Chars.

Definition is_digit (c : ascii) : bool :=
  (48 <=? N_of_ascii c) && (N_of_ascii c <=? 57).

Definition digit_value (c : ascii) : N := N_of_ascii c - 48.

(** ASCII lower-casing, the folding [re.IGNORECASE] applies. *)
Definition lower (c : ascii) : ascii :=
  if (65 <=? N_of_ascii c) && (N_of_ascii c <=? 90)
  then ascii_of_N (N_of_ascii c + 32) else c.

(** Character equality, exact or up to letter case. *)
Definition eq_char (ignorecase : bool) (a b : ascii) : bool :=
  if ignorecase then Ascii.eqb (lower a) (lower b) else Ascii.eqb a b.

(** [int(s)] on a run of digits: base ten, leading zeros allowed, no
  bound on the magnitude (a file name is far shorter than the 4300
  digits beyond which recent interpreters refuse the conversion). *)
Definition int (s : string) : N :=
  fold_left (fun acc c => 10 * acc + digit_value c) (list_ascii_of_string s) 0.

(** [str(n)]: the decimal numeral without leading zeros. *)
Definition str (n : N) : string := pretty n.

(** The longest prefix of digits, and what follows it. *)
Fixpoint span_digits (s : string) : string * string :=
  match s with
  | String c s' =>
      if is_digit c
      then let '(ds, r) := span_digits s' in (String c ds, r)
      else (EmptyString, s)
  | EmptyString => (EmptyString, EmptyString)
  end.

(** Consume the literal [lit] at the head of [s]. *)
Fixpoint eat (ignorecase : bool) (lit s : string) : option string :=
  match lit with
  | EmptyString => Some s
  | String a lit' =>
      match s with
      | String b s' => if eq_char ignorecase a b then eat ignorecase lit' s' else None
      | EmptyString => None
      end
  end.

(** Lexicographic order by character code, Python's [str] comparison. *)
Definition str_leb (a b : string) : bool := String.leb a b.
Definition str_lt (a b : string) : Prop := String.compare a b = Lt.

(** [sep.join(parts)]. *)
Fixpoint join (sep : string) (parts : list string) : string :=
  match parts with
  | [] => EmptyString
  | [x] => x
  | x :: rest => x +:+ sep +:+ join sep rest
  end.

End Chars.
Import Chars.

(** ** The two compiled patterns *)

Module Re.

(** [$] without [re.MULTILINE]: the end of the string, or the position
  just before a newline that ends the string. *)
Definition at_dollar (s : string) : bool :=
  match s with
  | EmptyString => true
  | String c EmptyString => Ascii.eqb c "010"
  | _ => false
  end.

(** [\d+] followed by the rest of the pattern [k]; the greedy run is
  tried first and then shortened one digit at a time. A shorter run is
  followed by a digit, which neither [$] nor [\.] accepts, so only the
  longest run can succeed. *)
Definition digits_then (k : string -> bool) (s : string) : option string :=
  let '(ds, r) := span_digits s in
  match ds with
  | EmptyString => None
  | _ => if k r then Some ds else None
  end.

(** [video(\d+)$] tried at the head of [s]; the result is group 1. *)
Definition VIDEO_DIR_RE_at (s : string) : option string :=
  match eat false "video" s with
  | Some r => digits_then at_dollar r
  | None => None
  end.

(** [case(\d+)\.html$] with [re.IGNORECASE], tried at the head of [s]. *)
Definition CASE_FILE_RE_at (s : string) : option string :=
  match eat true "case" s with
  | Some r =>
      digits_then (fun r' => match eat true ".html" r' with
                             | Some e => at_dollar e
                             | None => false
                             end) r
  | None => None
  end.

(** [pattern.search(s)]: the match at the leftmost position that has one. *)
Fixpoint search (at_head : string -> option string) (s : string) : option string :=
  match at_head s with
  | Some g => Some g
  | None =>
      match s with
      | String _ s' => search at_head s'
      | EmptyString => None
      end
  end.

Definition VIDEO_DIR_RE : string -> option string := search VIDEO_DIR_RE_at.
Definition CASE_FILE_RE : string -> option string := search CASE_FILE_RE_at.

End Re.

(** ** Shell-style patterns of [Path.glob] *)

(** [fnmatch] restricted to what the two patterns of the program use:
  literal characters and [*] (any run of characters, possibly empty). The
  whole name has to match. *)
Fixpoint fnmatch (pat : string) : string -> bool :=
  match pat with
  | EmptyString => fun s => match s with EmptyString => true | _ => false end
  | String c pat' =>
      if Ascii.eqb c "*"
      then fix star (s : string) : bool :=
             fnmatch pat' s ||
             match s with
             | String _ s' => star s'
             | EmptyString => false
             end
      else fun s =>
             match s with
             | String d s' => Ascii.eqb c d && fnmatch pat' s'
             | EmptyString => false
             end
  end.

(** ** Stable sorting *)

(** [sorted] and [list.sort] are stable; so is this insertion sort: an
  element is put in front of the first one it is less than or equal to,
  and it stood in front of all of them before. *)
Section Sorting.
Context {A : Type} (le : A -> A -> bool).

Fixpoint insert_sorted (x : A) (l : list A) : list A :=
  match l with
  | [] => [x]
  | y :: l' => if le x y then x :: l else y :: insert_sorted x l'
  end.

Definition sorted (l : list A) : list A := foldr insert_sorted [] l.
End Sorting.

(** ** The file system *)

Inductive node :=
| File (content : string)
| Dir (entries : gmap string node).

(** An absolute path, as its components below the root directory. *)
Definition Path := list string.

Module Fs.

Fixpoint lookup_path (p : Path) (t : node) : option node :=
  match p with
  | [] => Some t
  | n :: p' =>
      match t with
      | Dir m => match m !! n with
                 | Some c => lookup_path p' c
                 | None => None
                 end
      | File _ => None
      end
  end.

Definition exists_ (fs : node) (p : Path) : bool :=
  match lookup_path p fs with Some _ => true | None => false end.

Definition is_dir (fs : node) (p : Path) : bool :=
  match lookup_path p fs with Some (Dir _) => true | _ => false end.

Definition is_file (fs : node) (p : Path) : bool :=
  match lookup_path p fs with Some (File _) => true | _ => false end.

(** The names in a directory, in the order the system lists them (any
  order); nothing for a file or a missing path. *)
Definition listdir (fs : node) (p : Path) : list string :=
  match lookup_path p fs with
  | Some (Dir m) => (map_to_list m).*1
  | _ => []
  end.

(** [p.glob(pat)] for a pattern without a separator. *)
Definition glob (fs : node) (p : Path) (pat : string) : list Path :=
  (fun n => p ++ [n]) <$> filter (fun n => fnmatch pat n = true) (listdir fs p).

(** [p.name]; the root has an empty name. *)
Definition name (p : Path) : string := List.last p EmptyString.

(** [p.parent]; the root is its own parent. *)
Definition parent (p : Path) : Path := removelast p.

(** [p.relative_to(other)] where [other] is an ancestor of [p]. The
  program calls it with [other] two levels above [base_dir] and [p] two
  levels below, so the [ValueError] of the other case cannot arise. *)
Definition relative_to (p other : Path) : Path := drop (List.length other) p.

(** [as_posix] of a relative path. *)
Definition as_posix (p : Path) : string :=
  match p with
  | [] => "."
  | _ => join "/" p
  end.

(** Comparison of two paths, as [sorted] applies it: component by
  component, the shorter one first when it is a prefix. *)
Fixpoint path_compare (p q : Path) : comparison :=
  match p, q with
  | [], [] => Eq
  | [], _ :: _ => Lt
  | _ :: _, [] => Gt
  | a :: p', b :: q' =>
      match String.compare a b with
      | Eq => path_compare p' q'
      | c => c
      end
  end.

Definition path_leb (p q : Path) : bool :=
  match path_compare p q with Gt => false | _ => true end.

End Fs.
Import Fs.

(** ** The scan *)

Record case_record := {
  case : N;
  filename : string;
  relpath : string
}.

(** One round of the inner loop: [cases] after looking at [html]. *)
Definition scan_case (fs : node) (base_dir : Path)
    (cases : list case_record) (html : Path) : list case_record :=
  if negb (is_file fs html) then cases
  else match Re.CASE_FILE_RE (name html) with
       | None => cases
       | Some g =>
           cases ++ [ {| case := int g;
                         filename := name html;
                         relpath := as_posix (relative_to html (parent (parent base_dir))) |} ]
       end.

(** The list [cases] built for one video directory, before it is sorted. *)
Definition scan_cases (fs : node) (base_dir video_dir : Path) : list case_record :=
  foldl (scan_case fs base_dir) [] (sorted path_leb (glob fs video_dir "case*.html")).

Definition case_leb (a b : case_record) : bool := case a <=? case b.

(** One round of the outer loop: [out] after looking at [video_dir]. *)
Definition scan_video (fs : node) (base_dir : Path)
    (out : gmap N (list case_record)) (video_dir : Path) : gmap N (list case_record) :=
  if negb (is_dir fs video_dir) then out
  else match Re.VIDEO_DIR_RE (name video_dir) with
       | None => out
       | Some g =>
           let vnum := int g in
           match scan_cases fs base_dir video_dir with
           | [] => out
           | cases => <[vnum := sorted case_leb cases]> out
           end
       end.

Definition scan_language (fs : node) (base_dir : Path) : gmap N (list case_record) :=
  if negb (exists_ fs base_dir) then ∅
  else foldl (scan_video fs base_dir) ∅ (sorted path_leb (glob fs base_dir "video*")).


(** ** The document *)

(** The command line, after [Path.resolve]: [root] is absolute, the other
  three are as typed, relative to [root] or absolute. *)
Inductive arg :=
| Relative (parts : Path)
| Absolute (parts : Path).

(** [root / a]: an absolute right-hand side replaces the left-hand one. *)
Definition joinpath (root : Path) (a : arg) : Path :=
  match a with
  | Relative parts => root ++ parts
  | Absolute parts => parts
  end.

(** [Path(a).as_posix()]. *)
Definition arg_as_posix (a : arg) : string :=
  match a with
  | Relative parts => as_posix parts
  | Absolute parts => "/" +:+ join "/" parts
  end.

Record args := {
  arg_root : Path;
  arg_base_en : arg;
  arg_base_ja : arg;
  arg_out : arg
}.

(** The defaults of the argument parser, below a given root. *)
Definition default_args (root : Path) : args :=
  {| arg_root := root;
     arg_base_en := Relative ["result"; "result_en"; "html"];
     arg_base_ja := Relative ["result"; "result_ja"; "html"];
     arg_out := Relative ["result"; "index.json"] |}.

Record per_lang (A : Type) := { en : A; ja : A }.
Arguments en {A} _.
Arguments ja {A} _.

(** The dictionary [payload]. A JSON object keeps the order of its keys, so
  the two [videos] objects are lists of pairs. *)
Record payload := {
  generated_at : string;
  base : per_lang string;
  counts : per_lang nat;
  videos : per_lang (list (string * list case_record))
}.

(** [sum(len(v) for v in m.values())]. *)
Definition count_cases (m : gmap N (list case_record)) : nat :=
  sum_list (List.length <$> (map_to_list m).*2).

(** [sorted(m.items())] compares the pairs by their keys: the keys of a
  dictionary are distinct, so the values are never compared. *)
Definition item_leb (a b : N * list case_record) : bool := a.1 <=? b.1.

(** [{str(k): v for k, v in sorted(m.items())}]. *)
Definition render_videos (m : gmap N (list case_record))
    : list (string * list case_record) :=
  (fun kv => (str kv.1, kv.2)) <$> sorted item_leb (map_to_list m).

(** Lines 83 to 102 of [main]: the two scans and the dictionary built from
  them; [now] is the time stamp read from the clock. *)
Definition assemble (now : string) (a : args) (fs : node) : payload :=
  let en_map := scan_language fs (joinpath (arg_root a) (arg_base_en a)) in
  let ja_map := scan_language fs (joinpath (arg_root a) (arg_base_ja a)) in
  {| generated_at := now;
     base := {| en := arg_as_posix (arg_base_en a); ja := arg_as_posix (arg_base_ja a) |};
     counts := {| en := count_cases en_map; ja := count_cases ja_map |};
     videos := {| en := render_videos en_map; ja := render_videos ja_map |} |}.


(** ** Serialisation: [json.dump(payload, f, ensure_ascii=False, indent=2)] *)

Inductive json :=
| JInt (n : N)
| JStr (s : string)
| JList (items : list json)
| JDict (items : list (string * json)).

Module Json.

Definition quote_char : ascii := "034".
Definition backslash : ascii := "092".

Definition hex_digit (n : N) : ascii :=
  if n <? 10 then ascii_of_N (48 + n) else ascii_of_N (87 + n).

(** The escapes of [encode_basestring]: the quote, the backslash and the
  control characters; every other character is written as it is. *)
Definition escape_char (c : ascii) : string :=
  let n := N_of_ascii c in
  if Ascii.eqb c quote_char then String backslash (String quote_char EmptyString)
  else if Ascii.eqb c backslash then String backslash (String backslash EmptyString)
  else if n =? 8 then "\b"
  else if n =? 12 then "\f"
  else if n =? 10 then "\n"
  else if n =? 13 then "\r"
  else if n =? 9 then "\t"
  else if n <? 32 then "\u00" +:+ String (hex_digit (n / 16)) (String (hex_digit (n mod 16)) EmptyString)
  else String c EmptyString.

Fixpoint escape (s : string) : string :=
  match s with
  | EmptyString => EmptyString
  | String c s' => escape_char c +:+ escape s'
  end.

Definition quoted (s : string) : string :=
  String quote_char (escape s +:+ String quote_char EmptyString).

Fixpoint spaces (n : nat) : string :=
  match n with
  | O => EmptyString
  | S n' => String " " (spaces n')
  end.

(** A line break and the indentation of nesting depth [level]. *)
Definition newline_indent (level : nat) : string :=
  String "010" (spaces (2 * level)).

Fixpoint dumps (level : nat) (j : json) : string :=
  match j with
  | JInt n => str n
  | JStr s => quoted s
  | JList [] => "[]"
  | JList items =>
      "[" +:+ newline_indent (S level)
      +:+ join ("," +:+ newline_indent (S level)) (List.map (dumps (S level)) items)
      +:+ newline_indent level +:+ "]"
  | JDict [] => "{}"
  | JDict items =>
      "{" +:+ newline_indent (S level)
      +:+ join ("," +:+ newline_indent (S level))
            (List.map (fun kv => quoted kv.1 +:+ ": " +:+ dumps (S level) kv.2) items)
      +:+ newline_indent level +:+ "}"
  end.

Definition of_case (r : case_record) : json :=
  JDict [("case", JInt (case r)); ("filename", JStr (filename r)); ("relpath", JStr (relpath r))].

Definition of_videos (vs : list (string * list case_record)) : json :=
  JDict ((fun kv => (kv.1, JList (of_case <$> kv.2))) <$> vs).

Definition of_payload (doc : payload) : json :=
  JDict [("generated_at", JStr (generated_at doc));
         ("base", JDict [("en", JStr (en (base doc))); ("ja", JStr (ja (base doc)))]);
         ("counts", JDict [("en", JInt (N.of_nat (en (counts doc))));
                           ("ja", JInt (N.of_nat (ja (counts doc))))]);
         ("videos", JDict [("en", of_videos (en (videos doc)));
                           ("ja", of_videos (ja (videos doc)))])].

End Json.

(** ** The run: [main] as a function of the file system *)

Inductive error :=
| FileExistsError
| FileNotFoundError
| NotADirectoryError
| IsADirectoryError
| OSError.

Module Io.

(** [p.mkdir(parents=True, exist_ok=True)]: every missing directory on
  the way to [p] is created; a regular file on the way is an error, met
  before anything is created. *)
Fixpoint mkdir_parents (p : Path) (t : node) : error + node :=
  match t with
  | File _ => inl (match p with [] => FileExistsError | _ => NotADirectoryError end)
  | Dir m =>
      match p with
      | [] => inr t
      | n :: p' =>
          match mkdir_parents p' (default (Dir ∅) (m !! n)) with
          | inl e => inl e
          | inr c => inr (Dir (<[n := c]> m))
          end
      end
  end.

(** [with p.open("w") as f: f.write(text)], on the subtree [t] found at
  the place reached so far ([None]: nothing there). The file is created
  or replaced; a directory at [p] is an error. *)
Fixpoint write_text (p : Path) (text : string) (t : option node) : error + node :=
  match p with
  | [] =>
      match t with
      | Some (Dir _) => inl IsADirectoryError
      | _ => inr (File text)
      end
  | n :: p' =>
      match t with
      | Some (Dir m) =>
          match write_text p' text (m !! n) with
          | inl e => inl e
          | inr c => inr (Dir (<[n := c]> m))
          end
      | Some (File _) => inl NotADirectoryError
      | None => inl FileNotFoundError
      end
  end.

(** [str(p)] of an absolute path. *)
Definition path_str (p : Path) : string := "/" +:+ join "/" p.

End Io.
Import Io.

(** What the environment does to a run. The program catches no exception,
  so an input/output error (permission denied, device error, full disk)
  raised under a scan or under the write ends the run there; a write that
  fails leaves the first [written] characters of the text in the file. *)
Inductive fault :=
| NoFault
| ScanFault
| WriteFault (written : nat).

Inductive outcome :=
| Wrote (fs' : node) (doc : payload) (stdout : string)
| Raised (e : error) (fs' : node).

Definition main (now : string) (f : fault) (a : args) (fs : node) : outcome :=
  let out_path := joinpath (arg_root a) (arg_out a) in
  match mkdir_parents (parent out_path) fs with
  | inl e => Raised e fs
  | inr fs1 =>
      match f with
      | ScanFault => Raised OSError fs1
      | _ =>
          let doc := assemble now a fs1 in
          let text := Json.dumps 0 (Json.of_payload doc) in
          match f with
          | WriteFault written =>
              match write_text out_path (String.substring 0 written text) (Some fs1) with
              | inl e => Raised e fs1
              | inr fs2 => Raised OSError fs2
              end
          | _ =>
              match write_text out_path text (Some fs1) with
              | inl e => Raised e fs1
              | inr fs2 => Wrote fs2 doc ("Wrote " +:+ path_str out_path)
              end
          end
      end
  end.


(** ** The scan when [os.stat] fails *)

(** [Path.exists], [Path.is_dir] and [Path.is_file] call [os.stat]. They
    answer [False] when the call reports that the path is absent (ENOENT,
    ENOTDIR) and let every other error through as an exception: a name
    longer than the file system allows, a directory on the way that may not
    be searched, a device error. The program catches nothing, so such an
    error ends [scan_language]. [refuses] tells at which paths [os.stat]
    fails in that way; [Path.glob] keeps such errors to itself. *)
Section OsErrors.
Variable refuses : Path -> bool.

Definition exists_os (fs : node) (p : Path) : error + bool :=
  if refuses p then inl OSError else inr (exists_ fs p).

Definition is_dir_os (fs : node) (p : Path) : error + bool :=
  if refuses p then inl OSError else inr (is_dir fs p).

Definition is_file_os (fs : node) (p : Path) : error + bool :=
  if refuses p then inl OSError else inr (is_file fs p).

(** One round of the inner loop; an exception raised earlier stays. *)
Definition scan_case_os (fs : node) (base_dir : Path)
    (acc : error + list case_record) (html : Path) : error + list case_record :=
  match acc with
  | inl e => inl e
  | inr cases =>
      match is_file_os fs html with
      | inl e => inl e
      | inr false => inr cases
      | inr true =>
          match Re.CASE_FILE_RE (name html) with
          | None => inr cases
          | Some g =>
              inr (cases ++ [ {| case := int g;
                                 filename := name html;
                                 relpath := as_posix (relative_to html
                                                        (parent (parent base_dir))) |} ])
          end
      end
  end.

Definition scan_cases_os (fs : node) (base_dir video_dir : Path)
    : error + list case_record :=
  foldl (scan_case_os fs base_dir) (inr [])
        (sorted path_leb (glob fs video_dir "case*.html")).

(** One round of the outer loop. *)
Definition scan_video_os (fs : node) (base_dir : Path)
    (acc : error + gmap N (list case_record)) (video_dir : Path)
    : error + gmap N (list case_record) :=
  match acc with
  | inl e => inl e
  | inr out =>
      match is_dir_os fs video_dir with
      | inl e => inl e
      | inr false => inr out
      | inr true =>
          match Re.VIDEO_DIR_RE (name video_dir) with
          | None => inr out
          | Some g =>
              match scan_cases_os fs base_dir video_dir with
              | inl e => inl e
              | inr [] => inr out
              | inr cases => inr (<[int g := sorted case_leb cases]> out)
              end
          end
      end
  end.

Definition scan_language_os (fs : node) (base_dir : Path)
    : error + gmap N (list case_record) :=
  match exists_os fs base_dir with
  | inl e => inl e
  | inr false => inr ∅
  | inr true =>
      foldl (scan_video_os fs base_dir) (inr ∅)
            (sorted path_leb (glob fs base_dir "video*"))
  end.

End OsErrors.

(** The longest name a directory entry can have, in bytes (Linux). *)
Definition NAME_MAX : nat := 255.

(** The look-up of [p] meets a name longer than [NAME_MAX] in a directory
    that exists: [os.stat] fails with ENAMETOOLONG. A component that is
    missing before that point ends the look-up with ENOENT instead. *)
Fixpoint enametoolong (p : Path) (t : node) : bool :=
  match p with
  | [] => false
  | n :: p' =>
      match t with
      | Dir m =>
          if (NAME_MAX <? String.length n)%nat then true
          else match m !! n with
               | Some c => enametoolong p' c
               | None => false
               end
      | File _ => false
      end
  end.

(** A name of ASCII characters only; on such names the classes of the
    patterns are the ones the interpreter uses. *)
Fixpoint is_ascii (s : string) : bool :=
  match s with
  | EmptyString => true
  | String c s' => (N_of_ascii c <? 128) && is_ascii s'
  end.

(** ** Views used by the proofs *)

(** The order a stable sort produces. [R] is an order the input already
  has; the output is ordered by [le], and by [R] among the elements that
  [le] does not tell apart. *)
Definition sorted_rel {A : Type} (le : A -> A -> bool) (R : A -> A -> Prop)
    (a b : A) : Prop :=
  le a b = true /\ (le b a = true -> R a b).

(** What follows a maximal run of digits is not a digit. *)
Definition no_digit_ahead (r : string) : Prop :=
  match r with
  | String c _ => is_digit c = false
  | EmptyString => True
  end.

(** The names a sorted [glob] goes through, in that order. *)
Definition names (fs : node) (p : Path) (pat : string) : list string :=
  sorted str_leb (filter (fun n => fnmatch pat n = true) (listdir fs p)).

(** ** The two loops, one entry at a time *)

(** The record the inner loop appends for the entry [n] of [video_dir]:
  none unless [n] is a regular file with a name the pattern accepts. *)
Definition case_of (fs : node) (base_dir video_dir : Path) (n : string)
    : option case_record :=
  if is_file fs (video_dir ++ [n])
  then match Re.CASE_FILE_RE n with
       | Some g =>
           Some {| case := int g;
                   filename := n;
                   relpath := as_posix (relative_to (video_dir ++ [n])
                                          (parent (parent base_dir))) |}
       | None => None
       end
  else None.

(** What the outer loop stores for the entry [n] of [base_dir]: nothing
  unless [n] is a directory with a name the pattern accepts and at least
  one case record. *)
Definition group_of (fs : node) (base_dir : Path) (n : string)
    : option (N * list case_record) :=
  if is_dir fs (base_dir ++ [n])
  then match Re.VIDEO_DIR_RE n with
       | Some g =>
           match scan_cases fs base_dir (base_dir ++ [n]) with
           | [] => None
           | cases => Some (int g, sorted case_leb cases)
           end
       | None => None
       end
  else None.

(** [out[vnum] = cases], when there is something to store. *)
Definition store {K : Type} `{Countable K} {V E : Type}
    (g : E -> option (K * V)) (out : gmap K V) (e : E) : gmap K V :=
  match g e with
  | Some (k, v) => <[k := v]> out
  | None => out
  end.

(** ** Vocabulary of the statements *)

(** [n] is an entry of [video_dir] that the inner loop turns into a record:
  a regular file let through by the glob and by the pattern. *)
Definition matching_case_file (fs : node) (video_dir : Path) (n : string) : bool :=
  is_file fs (video_dir ++ [n]) && fnmatch "case*.html" n
  && bool_decide (is_Some (Re.CASE_FILE_RE n)).

(** The order of the records of one video: by case number, and by file
  name among equal case numbers. *)
Definition case_order (a b : case_record) : Prop :=
  case a < case b \/ (case a = case b /\ str_lt (filename a) (filename b)).

Fixpoint all_digits (s : string) : bool :=
  match s with
  | EmptyString => true
  | String c s' => is_digit c && all_digits s'
  end.

Definition newline : string := String "010" EmptyString.

(** A name of the form [video<digits>] and nothing else. *)
Definition strict_video_name (n : string) : Prop :=
  exists ds, n = "video" +:+ ds /\ ds <> EmptyString /\ all_digits ds = true.

(** A name that starts with [video] and ends with [video<digits>], the end
  of the name being taken as [$] takes it: a last newline does not count. *)
Definition video_name (n : string) : Prop :=
  (exists r, n = "video" +:+ r) /\
  exists pre ds nl,
    n = pre +:+ ("video" +:+ (ds +:+ nl)) /\
    ds <> EmptyString /\ all_digits ds = true /\
    (nl = EmptyString \/ nl = newline).

(** The number the outer loop reads from the name of an entry that the
  glob [video*] yields. *)
Definition video_number (n : string) : option N :=
  if fnmatch "video*" n then int <$> Re.VIDEO_DIR_RE n else None.

(** [d] is a subdirectory of [base_dir] whose name parses to the video
  number [v] and that holds at least one matching case file. *)
Definition video_dir (fs : node) (base_dir : Path) (d : string) (v : N) : Prop :=
  is_dir fs (base_dir ++ [d]) = true /\
  video_number d = Some v /\
  exists f, matching_case_file fs (base_dir ++ [d]) f = true.

(** No path separator in a name, as in every name a file system hands out. *)
Fixpoint slash_free (s : string) : bool :=
  match s with
  | EmptyString => true
  | String c s' => negb (Ascii.eqb c "/") && slash_free s'
  end.

(** What [os.stat] tells about a path: nothing there, a directory, or a
  regular file and what it holds. Two trees with the same [stat] at
  every path are the same tree. *)
Inductive kind :=
| KFile (content : string)
| KDir.

Definition stat (fs : node) (p : Path) : option kind :=
  match lookup_path p fs with
  | Some (File c) => Some (KFile c)
  | Some (Dir _) => Some KDir
  | None => None
  end.

(** The same below a place that may be empty. *)
Definition stat_at (t : option node) (p : Path) : option kind :=
  match t with
  | Some fs => stat fs p
  | None => None
  end.

(** Equality of two strings up to the case of their letters. *)
Fixpoint same_letters (a b : string) : bool :=
  match a, b with
  | EmptyString, EmptyString => true
  | String x a', String y b' => eq_char true x y && same_letters a' b'
  | _, _ => false
  end.

(** A name the inner loop turns into a record, [g] being the digits it
    reads the case number from: the name starts with [case] and ends with
    [.html] as written, and it ends with [case], the digits [g] and
    [.html], these two words in any letter case. *)
Definition case_name (n g : string) : Prop :=
  (exists mid, n = "case" +:+ (mid +:+ ".html")) /\
  exists pre c h,
    n = pre +:+ (c +:+ (g +:+ h)) /\
    same_letters "case" c = true /\ same_letters ".html" h = true /\
    g <> EmptyString /\ all_digits g = true.

(** The index is not written where a scan looks for case files: its path
    is not two levels below either base directory. *)
Definition out_of_scan (a : args) : Prop :=
  forall d f : string,
    joinpath (arg_root a) (arg_out a) <> joinpath (arg_root a) (arg_base_en a) ++ [d; f] /\
    joinpath (arg_root a) (arg_out a) <> joinpath (arg_root a) (arg_base_ja a) ++ [d; f].

(** The last character of a string, if it has one. *)
Fixpoint last_char (s : string) : option ascii :=
  match s with
  | EmptyString => None
  | String c EmptyString => Some c
  | String _ s' => last_char s'
  end.

(** ** Sample trees *)

Module Samples.

Definition empty_file : node := File EmptyString.

(** [html/video1] holds [case1.html], [case01.html] and [case3.html];
  [notes] is a regular file. *)
Definition fs_twins : node :=
  Dir {[ "html" := Dir {[ "video1" := Dir {[ "case1.html" := empty_file;
                                              "case01.html" := empty_file;
                                              "case3.html" := empty_file ]} ]};
         "notes" := empty_file ]}.

(** The scenario of the specification, below the root [/repo]: two case
files under [result/result_en/html/video2], no [result/result_ja]. *)
Definition fs_scenario : node :=
  Dir {[ "repo" := Dir {[ "result" := Dir {[ "result_en" := Dir {[ "html" :=
    Dir {[ "video2" := Dir {[ "case01.html" := empty_file;
                              "case2.html" := empty_file ]} ]} ]} ]} ]} ]}.

(** [video9] and [video10], one case file each. *)
Definition fs_nine_ten : node :=
  Dir {[ "result" := Dir {[ "result_en" := Dir {[ "html" :=
    Dir {[ "video9" := Dir {[ "case1.html" := empty_file ]};
           "video10" := Dir {[ "case1.html" := empty_file ]} ]} ]} ]} ]}.

(** Case files whose names are written in capitals. *)
Definition fs_capitals : node :=
  Dir {[ "html" := Dir {[ "video1" := Dir {[ "CASE1.HTML" := empty_file;
                                                "Case2.Html" := empty_file ]} ]} ]}.

(** Directories with unusual names next to each other. *)
Definition fs_odd_names : node :=
  Dir {[ "html" := Dir {[ "videos_video3" := Dir {[ "case1.html" := empty_file ]};
                          "video3x" := Dir {[ "case2.html" := empty_file ]} ]} ]}.

(** Two directories that both read as video 1. *)
Definition fs_same_number : node :=
  Dir {[ "html" := Dir {[ "video01" := Dir {[ "case1.html" := empty_file;
                                             "case2.html" := empty_file ]};
                          "video1" := Dir {[ "case7.html" := empty_file ]} ]} ]}.

(** Arguments that send the index to a directory that does not exist yet. *)
Definition args_new_out : args :=
  {| arg_root := [];
     arg_base_en := Relative ["result"; "result_en"; "html"];
     arg_base_ja := Relative ["result"; "result_ja"; "html"];
     arg_out := Relative ["site"; "index.json"] |}.

(** The tree [fs_twins] with other neighbours of [html]: the file [notes]
is gone, a directory [drafts] with a case file of its own is there. *)
Definition fs_twins_moved : node :=
  Dir {[ "html" := Dir {[ "video1" := Dir {[ "case1.html" := empty_file;
                                              "case01.html" := empty_file;
                                              "case3.html" := empty_file ]} ]};
         "drafts" := Dir {[ "video1" := Dir {[ "case9.html" := File "draft" ]} ]} ]}.

(** The tree of the scenario with [result] directly below the root. *)
Definition fs_scenario_at_root : node :=
  Dir {[ "result" := Dir {[ "result_en" := Dir {[ "html" :=
    Dir {[ "video2" := Dir {[ "case01.html" := empty_file;
                              "case2.html" := empty_file ]} ]} ]} ]} ]}.

(** A name of 300 letters. *)
Definition long_name : string := string_of_list_ascii (repeat "x"%char 300).

End Samples.

(** * Properties *)

(** ** The order on names *)

Section StringOrder.

Lemma ascii_compare_refl (c : ascii) : Ascii.compare c c = Eq.
Proof. unfold Ascii.compare. apply N.compare_refl. Qed.

Lemma ascii_compare_lt_trans (a b c : ascii) :
  Ascii.compare a b = Lt -> Ascii.compare b c = Lt -> Ascii.compare a c = Lt.
Proof.
  unfold Ascii.compare. rewrite !N.compare_lt_iff. apply N.lt_trans.
Qed.

Lemma str_compare_refl (s : string) : String.compare s s = Eq.
Proof.
  induction s as [|c s IH]; simpl; [done|]. by rewrite ascii_compare_refl.
Qed.

Lemma str_compare_eq (a b : string) : String.compare a b = Eq <-> a = b.
Proof.
  split; [apply String.compare_eq_iff|]. intros ->. apply str_compare_refl.
Qed.

Lemma str_lt_trans (a b c : string) : str_lt a b -> str_lt b c -> str_lt a c.
Proof.
  unfold str_lt. revert b c.
  induction a as [|x a IH]; intros [|y b] [|z c]; simpl; try done.
  destruct (Ascii.compare x y) eqn:Hxy; try done.
  - apply Ascii.compare_eq_iff in Hxy as ->.
    destruct (Ascii.compare y z) eqn:Hyz; try done. apply IH.
  - intros _. destruct (Ascii.compare y z) eqn:Hyz; try done.
    + apply Ascii.compare_eq_iff in Hyz as <-. by rewrite Hxy.
    + by rewrite (ascii_compare_lt_trans _ _ _ Hxy Hyz).
Qed.

Lemma str_lt_irrefl (a : string) : ~ str_lt a a.
Proof. unfold str_lt. by rewrite str_compare_refl. Qed.

Lemma str_leb_spec (a b : string) : str_leb a b = true <-> a = b \/ str_lt a b.
Proof.
  unfold str_leb, String.leb, str_lt.
  destruct (String.compare a b) eqn:H.
  - apply String.compare_eq_iff in H. tauto.
  - tauto.
  - split; [done|]. intros [->|?]; [|done]. by rewrite str_compare_refl in H.
Qed.

Lemma str_leb_false (a b : string) : str_leb a b = false -> str_lt b a.
Proof.
  unfold str_leb, String.leb, str_lt. rewrite (String.compare_antisym b a).
  by destruct (String.compare a b).
Qed.

Lemma str_leb_trans (a b c : string) :
  str_leb a b = true -> str_leb b c = true -> str_leb a c = true.
Proof.
  rewrite !str_leb_spec. intros [->|Hab] [->|Hbc]; eauto using str_lt_trans.
Qed.

Lemma str_leb_total (a b : string) : str_leb a b = true \/ str_leb b a = true.
Proof. apply String.leb_total. Qed.

Lemma str_lt_not_leb (a b : string) : str_lt a b -> str_leb b a = false.
Proof.
  intros Hab. destruct (str_leb b a) eqn:H; [|done].
  apply str_leb_spec in H as [->|Hba].
  - by apply str_lt_irrefl in Hab.
  - destruct (str_lt_irrefl a). eauto using str_lt_trans.
Qed.

End StringOrder.

Lemma StronglySorted_mono {A : Type} (R1 R2 : A -> A -> Prop) (l : list A) :
  (forall a b, a ∈ l -> b ∈ l -> R1 a b -> R2 a b) ->
  StronglySorted R1 l -> StronglySorted R2 l.
Proof.
  intros Hmono Hl. induction Hl as [|x l Hl IH Hx]; constructor.
  - apply IH. intros a b Ha Hb. apply Hmono; by right.
  - rewrite Forall_forall in Hx |- *. intros y Hy.
    apply Hmono; [by left|by right|by apply Hx].
Qed.

Lemma sum_list_perm (l k : list nat) : l ≡ₚ k -> sum_list l = sum_list k.
Proof. induction 1; simpl; lia. Qed.

(** ** The insertion sort *)

Section SortingFacts.
Context {A : Type} (le : A -> A -> bool).

Lemma insert_sorted_perm (x : A) (l : list A) : insert_sorted le x l ≡ₚ x :: l.
Proof.
  induction l as [|y l IH]; simpl; [done|].
  destruct (le x y); [done|]. rewrite IH. apply Permutation_swap.
Qed.

Lemma sorted_perm (l : list A) : sorted le l ≡ₚ l.
Proof.
  induction l as [|x l IH]; simpl; [done|].
  fold (sorted le l). by rewrite insert_sorted_perm, IH.
Qed.

Lemma elem_of_sorted (x : A) (l : list A) : x ∈ sorted le l <-> x ∈ l.
Proof. by rewrite sorted_perm. Qed.

Lemma sorted_nil_inv (l : list A) : sorted le l = [] -> l = [].
Proof.
  intros H. apply Permutation_nil_r. rewrite <- H. symmetry. apply sorted_perm.
Qed.

(** A stable sort keeps the order the input has among the elements
  that [le] does not tell apart. *)
Context (R : A -> A -> Prop).

Hypothesis le_total : forall a b, le a b = true \/ le b a = true.
Hypothesis le_trans : forall a b c, le a b = true -> le b c = true -> le a c = true.

Lemma insert_sorted_stable (x : A) (l : list A) :
  Forall (R x) l ->
  StronglySorted (sorted_rel le R) l ->
  StronglySorted (sorted_rel le R) (insert_sorted le x l).
Proof.
  induction l as [|y l IH]; simpl; intros HR Hl.
  - repeat constructor.
  - inversion_clear HR as [|?? HRy HRl]. inversion_clear Hl as [|?? Hl' Hy].
    destruct (le x y) eqn:Hxy.
    + constructor; [by constructor|]. constructor.
      * split; [done|]. by intros _.
      * rewrite Forall_forall in Hy, HRl |- *. intros z Hz. split.
        -- eapply le_trans; [done|]. by apply Hy.
        -- intros _. by apply HRl.
    + constructor; [by apply IH|].
      rewrite Forall_forall. intros z Hz.
      rewrite insert_sorted_perm in Hz. apply elem_of_cons in Hz as [->|Hz].
      * destruct (le_total x y) as [Hc|Hc]; [congruence|].
        split; [done|]. intros Hc'. congruence.
      * rewrite Forall_forall in Hy. by apply Hy.
Qed.

Lemma sorted_stable (l : list A) :
  StronglySorted R l -> StronglySorted (sorted_rel le R) (sorted le l).
Proof.
  induction 1 as [|x l Hl IH Hx]; simpl; [constructor|].
  fold (sorted le l). apply insert_sorted_stable; [|exact IH].
  rewrite Forall_forall in Hx |- *. intros z Hz. apply Hx.
  by apply elem_of_sorted.
Qed.

End SortingFacts.

(** A sort through an order-preserving renaming is the renaming of the sort. *)
Lemma sorted_fmap {A B : Type} (leA : A -> A -> bool) (leB : B -> B -> bool)
    (f : A -> B) (l : list A) :
  (forall a b, leB (f a) (f b) = leA a b) ->
  sorted leB (f <$> l) = f <$> sorted leA l.
Proof.
  intros Hf.
  assert (Hins : forall x s,
    insert_sorted leB (f x) (f <$> s) = f <$> insert_sorted leA x s).
  { intros x s. induction s as [|y s IHs]; csimpl; [done|].
    rewrite Hf. destruct (leA x y); csimpl; [done|]. by rewrite IHs. }
  unfold sorted. induction l as [|x l IH]; csimpl; [done|].
  by rewrite IH, Hins.
Qed.

(** ** The patterns *)

Section PatternFacts.
Implicit Types (s r lit pat : string).
#[local] Arguments String.append !_ _ / : simpl nomatch.

Lemma append_assoc s1 s2 s3 : (s1 +:+ s2) +:+ s3 = s1 +:+ (s2 +:+ s3).
Proof. induction s1 as [|c s1 IH]; simpl; [done|]. by rewrite IH. Qed.

Lemma append_nil_r s : s +:+ EmptyString = s.
Proof. induction s as [|c s IH]; simpl; [done|]. by rewrite IH. Qed.

Lemma eat_exact lit s r : eat false lit s = Some r <-> s = lit +:+ r.
Proof.
  revert s. induction lit as [|a lit IH]; intros s; simpl.
  - split; [by intros [= ->]|by intros ->].
  - destruct s as [|b s]; [done|]. unfold eq_char.
    destruct (Ascii.eqb_spec a b) as [->|Hne].
    + rewrite IH. split; [by intros ->|by intros [= ->]].
    + split; [done|]. by intros [= ? ?].
Qed.

Lemma span_digits_spec s :
  s = (span_digits s).1 +:+ (span_digits s).2 /\
  all_digits (span_digits s).1 = true /\
  no_digit_ahead (span_digits s).2.
Proof.
  induction s as [|c s (IH1 & IH2 & IH3)]; simpl; [done|].
  destruct (is_digit c) eqn:Hc; simpl; [|done].
  destruct (span_digits s) as [ds r]; simpl in *.
  by rewrite Hc, IH2, <- IH1.
Qed.

Lemma span_digits_app ds r :
  all_digits ds = true -> no_digit_ahead r -> span_digits (ds +:+ r) = (ds, r).
Proof.
  intros Hds Hr. induction ds as [|c ds IH]; simpl in *.
  - destruct r as [|c r]; simpl in *; [done|]. by rewrite Hr.
  - apply andb_true_iff in Hds as [-> Hds]. by rewrite IH.
Qed.

Lemma at_dollar_spec r : Re.at_dollar r = true <-> r = EmptyString \/ r = newline.
Proof.
  unfold newline. destruct r as [|c [|c' r]]; simpl.
  - tauto.
  - rewrite Ascii.eqb_eq. split; [intros ->; by right|]. by intros [|[= ->]].
  - split; [done|]. by intros [|].
Qed.

Lemma at_dollar_no_digit r : Re.at_dollar r = true -> no_digit_ahead r.
Proof. intros [->| ->]%at_dollar_spec; done. Qed.

Lemma VIDEO_DIR_RE_at_spec s g :
  Re.VIDEO_DIR_RE_at s = Some g <->
  exists nl, s = "video" +:+ (g +:+ nl) /\ g <> EmptyString /\
    all_digits g = true /\ (nl = EmptyString \/ nl = newline).
Proof.
  unfold Re.VIDEO_DIR_RE_at, Re.digits_then. split.
  - destruct (eat false "video" s) as [r|] eqn:Heat; [|done].
    apply eat_exact in Heat as ->.
    destruct (span_digits_spec r) as (Hr & Hds & _).
    destruct (span_digits r) as [ds nl]; simpl in *.
    destruct ds as [|c ds]; [done|].
    destruct (Re.at_dollar nl) eqn:Hnl; [|done]. intros [= <-].
    exists nl. rewrite Hr. split; [done|]. split; [done|]. split; [done|].
    by apply at_dollar_spec.
  - intros (nl & -> & Hg & Hds & Hnl).
    assert (Heat : eat false "video" ("video" +:+ (g +:+ nl)) = Some (g +:+ nl))
      by by apply eat_exact.
    rewrite Heat. apply at_dollar_spec in Hnl.
    rewrite span_digits_app by (done || by apply at_dollar_no_digit).
    rewrite Hnl. by destruct g.
Qed.

Lemma search_Some (f : string -> option string) s g :
  Re.search f s = Some g -> exists pre suf, s = pre +:+ suf /\ f suf = Some g.
Proof.
  induction s as [|c s IH]; simpl.
  - destruct (f EmptyString) eqn:Hf; [|done]. intros [= ->].
    by exists EmptyString, EmptyString.
  - destruct (f (String c s)) eqn:Hf.
    + intros [= ->]. by exists EmptyString, (String c s).
    + intros (pre & suf & -> & Hsuf)%IH. by exists (String c pre), suf.
Qed.

Lemma search_is_Some (f : string -> option string) pre suf :
  is_Some (f suf) -> is_Some (Re.search f (pre +:+ suf)).
Proof.
  intros [g Hg]. induction pre as [|c pre IH]; simpl.
  - destruct suf; simpl; by rewrite Hg.
  - by destruct (f (String c (pre +:+ suf))).
Qed.

Lemma fnmatch_star s : fnmatch "*" s = true.
Proof. induction s as [|c s IH]; simpl in *; [done|]. by rewrite IH. Qed.

Lemma fnmatch_video_star s : fnmatch "video*" s = true <-> exists r, s = "video" +:+ r.
Proof.
  split.
  - intros Hs.
    repeat (destruct s as [|? s]; [done|];
            apply andb_true_iff in Hs as [->%Ascii.eqb_eq Hs]).
    by exists s.
  - intros [r ->]. apply (fnmatch_star r).
Qed.

(** The two filters of the outer loop let a name through exactly when it
  is a [video_name]; the group the pattern returns is the run of digits. *)
Lemma video_filters_spec (n : string) :
  fnmatch "video*" n = true /\ is_Some (Re.VIDEO_DIR_RE n) <-> video_name n.
Proof.
  unfold video_name. rewrite fnmatch_video_star. apply and_iff_compat_l. split.
  - intros [g (pre & suf & -> & (nl & -> & ? & ? & ?)%VIDEO_DIR_RE_at_spec)%search_Some].
    by exists pre, g, nl.
  - intros (pre & ds & nl & -> & ? & ? & ?). apply search_is_Some.
    exists ds. apply VIDEO_DIR_RE_at_spec. by exists nl.
Qed.

End PatternFacts.

(** ** Paths and directory listings *)

Section FsFacts.
Implicit Types (fs t : node) (p q : Path) (n : string).

Lemma lookup_path_app p q t :
  lookup_path (p ++ q) t = lookup_path p t ≫= lookup_path q.
Proof.
  revert t. induction p as [|n p IH]; intros t; simpl; [done|].
  destruct t as [c|m]; [done|]. destruct (m !! n); [apply IH|done].
Qed.

Lemma lookup_path_child fs p n :
  lookup_path (p ++ [n]) fs =
  match lookup_path p fs with
  | Some (Dir m) => m !! n
  | _ => None
  end.
Proof.
  rewrite lookup_path_app. destruct (lookup_path p fs) as [[c|m]|]; simpl; try done.
  by destruct (m !! n).
Qed.

Lemma elem_of_listdir fs p n :
  n ∈ listdir fs p <-> is_Some (lookup_path (p ++ [n]) fs).
Proof.
  unfold listdir. rewrite lookup_path_child.
  destruct (lookup_path p fs) as [[c|m]|].
  - rewrite elem_of_nil. split; [done|]. by intros [? ?].
  - rewrite list_elem_of_fmap. split.
    + intros [[k v] [-> Hkv]]. apply elem_of_map_to_list in Hkv. by exists v.
    + intros [v Hv]. exists (n, v). split; [done|]. by apply elem_of_map_to_list.
  - rewrite elem_of_nil. split; [done|]. by intros [? ?].
Qed.

Lemma NoDup_listdir fs p : NoDup (listdir fs p).
Proof.
  unfold listdir. destruct (lookup_path p fs) as [[c|m]|]; try constructor.
  apply NoDup_fst_map_to_list.
Qed.

Lemma name_child p n : name (p ++ [n]) = n.
Proof. unfold name. apply last_last. Qed.

Lemma parent_child p n : parent (p ++ [n]) = p.
Proof. unfold parent. apply removelast_last. Qed.

Lemma path_compare_siblings p a b :
  path_compare (p ++ [a]) (p ++ [b]) = String.compare a b.
Proof.
  induction p as [|n p IH]; simpl.
  - by destruct (String.compare a b).
  - by rewrite str_compare_refl.
Qed.

Lemma path_leb_siblings p a b : path_leb (p ++ [a]) (p ++ [b]) = str_leb a b.
Proof. unfold path_leb. by rewrite path_compare_siblings. Qed.

Lemma sorted_glob fs p pat :
  sorted path_leb (glob fs p pat) = (fun n => p ++ [n]) <$> names fs p pat.
Proof.
  unfold glob, names. apply sorted_fmap. intros a b. apply path_leb_siblings.
Qed.

Lemma elem_of_names fs p pat n :
  n ∈ names fs p pat <->
  fnmatch pat n = true /\ is_Some (lookup_path (p ++ [n]) fs).
Proof.
  unfold names. by rewrite elem_of_sorted, list_elem_of_filter, elem_of_listdir.
Qed.

Lemma NoDup_names fs p pat : NoDup (names fs p pat).
Proof.
  unfold names. rewrite sorted_perm. apply NoDup_filter, NoDup_listdir.
Qed.

Lemma names_sorted fs p pat : StronglySorted str_lt (names fs p pat).
Proof.
  assert (Hne : forall l : list string, NoDup l -> StronglySorted (fun a b => a <> b) l).
  { induction 1 as [|x l Hx Hl IH]; constructor; [done|].
    rewrite Forall_forall. intros y Hy ->. done. }
  unfold names.
  assert (Hnd : NoDup (filter (fun n => fnmatch pat n = true) (listdir fs p)))
    by apply NoDup_filter, NoDup_listdir.
  pose proof (sorted_stable str_leb _ str_leb_total str_leb_trans _
                (Hne _ Hnd)) as Hs.
  revert Hs. generalize (sorted str_leb
    (filter (fun n => fnmatch pat n = true) (listdir fs p))).
  induction 1 as [|x l Hl IH Hx]; constructor; [done|].
  rewrite Forall_forall in Hx |- *. intros y Hy.
  destruct (Hx y Hy) as [Hle Hne']. apply str_leb_spec in Hle as [->|Hlt]; [|done].
  exfalso. apply Hne'; [|done]. apply str_leb_spec. by left.
Qed.

End FsFacts.

(** ** Assignments to a dictionary in a loop *)

Section StoreFacts.
Context {K : Type} `{Countable K} {V E : Type} (g : E -> option (K * V)).
Implicit Types (out : gmap K V) (l : list E).

Lemma store_fold_keep out l k :
  (forall e v, e ∈ l -> g e <> Some (k, v)) ->
  foldl (store g) out l !! k = out !! k.
Proof.
  revert out. induction l as [|e l IH]; intros out Hl; simpl; [done|].
  rewrite IH by (intros; apply Hl; by right).
  unfold store. destruct (g e) as [[k' v']|] eqn:He; [|done].
  apply lookup_insert_ne. intros ->. by apply (Hl e v'); [left|].
Qed.

(** The last assignment to a key is the one that stays. *)
Lemma store_fold_last out l1 l2 e k v :
  g e = Some (k, v) ->
  (forall e' v', e' ∈ l2 -> g e' <> Some (k, v')) ->
  foldl (store g) out (l1 ++ e :: l2) !! k = Some v.
Proof.
  intros He Hl2. rewrite foldl_app. simpl. rewrite store_fold_keep by done.
  unfold store. rewrite He. apply lookup_insert_eq.
Qed.

(** Whatever is in the dictionary at the end was there at the start or
  was stored by some round. *)
Lemma store_fold_origin out l k v :
  foldl (store g) out l !! k = Some v ->
  out !! k = Some v \/ exists e, e ∈ l /\ g e = Some (k, v).
Proof.
  revert out. induction l as [|e l IH]; intros out; simpl; [by left|].
  intros Hk. apply IH in Hk as [Hk|(e' & He' & Hg)].
  - unfold store in Hk. destruct (g e) as [[k' v']|] eqn:He; [|by left].
    destruct (decide (k' = k)) as [->|Hne].
    + rewrite lookup_insert_eq in Hk. injection Hk as ->.
      right. exists e. split; [by left|done].
    + rewrite lookup_insert_ne in Hk by done. by left.
  - right. exists e'. split; [by right|done].
Qed.

(** A round that stores under [k] leaves [k] in the dictionary. *)
Lemma store_fold_dom out l k :
  is_Some (out !! k) \/ (exists e v, e ∈ l /\ g e = Some (k, v)) ->
  is_Some (foldl (store g) out l !! k).
Proof.
  revert out. induction l as [|e' l IH]; intros out; simpl.
  - intros [?|(e & v & Hin & _)]; [done|]. by apply elem_of_nil in Hin.
  - intros Hk. apply IH. unfold store.
    destruct Hk as [Hk|(e & v & Hin & He)].
    + left. destruct (g e') as [[k' v']|]; [|done].
      rewrite lookup_insert. by case_decide.
    + apply elem_of_cons in Hin as [->|Hin]; [|right; eauto].
      left. rewrite He, lookup_insert_eq. by eexists.
Qed.

End StoreFacts.

(** ** The loops of the scan *)

Section ScanFacts.
Implicit Types (fs : node) (base vd : Path) (n : string).

Lemma scan_case_step fs base vd cases n :
  scan_case fs base cases (vd ++ [n]) =
  cases ++ option_list (case_of fs base vd n).
Proof.
  unfold scan_case, case_of. rewrite name_child.
  destruct (is_file fs (vd ++ [n])); simpl; [|by rewrite app_nil_r].
  destruct (Re.CASE_FILE_RE n); simpl; [done|by rewrite app_nil_r].
Qed.

Lemma scan_cases_omap fs base vd :
  scan_cases fs base vd = omap (case_of fs base vd) (names fs vd "case*.html").
Proof.
  unfold scan_cases. rewrite sorted_glob.
  generalize (names fs vd "case*.html"). intros l.
  change (omap (case_of fs base vd) l) with ([] ++ omap (case_of fs base vd) l).
  generalize (@nil case_record).
  induction l as [|n l IH]; intros acc; csimpl; [by rewrite app_nil_r|].
  rewrite IH, scan_case_step.
  destruct (case_of fs base vd n); simpl; [by rewrite <- app_assoc|by rewrite app_nil_r].
Qed.

Lemma scan_video_step fs base out n :
  scan_video fs base out (base ++ [n]) = store (group_of fs base) out n.
Proof.
  unfold scan_video, store, group_of. rewrite name_child.
  destruct (is_dir fs (base ++ [n])); simpl; [|done].
  destruct (Re.VIDEO_DIR_RE n); [|done].
  by destruct (scan_cases fs base (base ++ [n])).
Qed.

Lemma scan_language_fold fs base :
  scan_language fs base =
  foldl (store (group_of fs base)) ∅ (names fs base "video*").
Proof.
  unfold scan_language. rewrite sorted_glob.
  assert (Hfold : forall l out,
    foldl (scan_video fs base) out ((fun n => base ++ [n]) <$> l) =
    foldl (store (group_of fs base)) out l).
  { induction l as [|n l IH]; intros out; csimpl; [done|].
    by rewrite scan_video_step, IH. }
  rewrite Hfold. destruct (exists_ fs base) eqn:Hex; simpl; [done|].
  unfold names, listdir. unfold exists_ in Hex.
  by destruct (lookup_path base fs).
Qed.

End ScanFacts.

(** ** What the scan returns *)

Section ScanResult.
Implicit Types (fs : node) (base vd : Path) (n : string).

(** Every entry of the result was stored for some entry of [base_dir]. *)
Lemma scan_language_origin fs base v cases :
  scan_language fs base !! v = Some cases ->
  exists n, n ∈ names fs base "video*" /\ group_of fs base n = Some (v, cases).
Proof.
  rewrite scan_language_fold. intros Hv.
  apply store_fold_origin in Hv as [Hv|Hv]; [|done].
  by rewrite lookup_empty in Hv.
Qed.

Lemma group_of_inv fs base n v cases :
  group_of fs base n = Some (v, cases) ->
  is_dir fs (base ++ [n]) = true /\
  (exists g, Re.VIDEO_DIR_RE n = Some g /\ v = int g) /\
  scan_cases fs base (base ++ [n]) <> [] /\
  cases = sorted case_leb (scan_cases fs base (base ++ [n])).
Proof.
  unfold group_of. destruct (is_dir fs (base ++ [n])); [|done].
  destruct (Re.VIDEO_DIR_RE n) as [g|]; [|done].
  destruct (scan_cases fs base (base ++ [n])) as [|r rs] eqn:Hc; [done|].
  intros [= <- <-]. split; [done|]. split; [by exists g|]. by split.
Qed.

Lemma case_of_filename fs base vd n r :
  case_of fs base vd n = Some r -> filename r = n.
Proof.
  unfold case_of. destruct (is_file fs (vd ++ [n])); [|done].
  destruct (Re.CASE_FILE_RE n); [|done]. by intros [= <-].
Qed.

Lemma case_of_matching fs base vd n :
  n ∈ names fs vd "case*.html" ->
  is_Some (case_of fs base vd n) <-> matching_case_file fs vd n = true.
Proof.
  intros [Hpat _]%elem_of_names. unfold case_of, matching_case_file.
  rewrite Hpat, andb_true_r.
  destruct (is_file fs (vd ++ [n])); simpl.
  - rewrite bool_decide_eq_true. by destruct (Re.CASE_FILE_RE n).
  - split; [by intros [? ?]|done].
Qed.

(** The raw list of one video is in the order of the file names. *)
Lemma scan_cases_by_name fs base vd :
  StronglySorted (fun a b => str_lt (filename a) (filename b))
    (scan_cases fs base vd).
Proof.
  rewrite scan_cases_omap. generalize (names_sorted fs vd "case*.html").
  generalize (names fs vd "case*.html"). intros l Hs.
  induction Hs as [|n l Hl IH Hn]; csimpl; [constructor|].
  destruct (case_of fs base vd n) as [r|] eqn:Hr; [|done].
  constructor; [done|]. rewrite Forall_forall in Hn. rewrite Forall_forall.
  intros r' Hr'. apply list_elem_of_omap in Hr' as (n' & Hn' & Hc).
  rewrite (case_of_filename _ _ _ _ _ Hr), (case_of_filename _ _ _ _ _ Hc).
  by apply Hn.
Qed.

(** One record for each matching file, no more and no fewer. *)
Lemma scan_cases_files fs base vd :
  filename <$> scan_cases fs base vd ≡ₚ
  filter (fun n => matching_case_file fs vd n = true) (listdir fs vd).
Proof.
  rewrite scan_cases_omap.
  assert (Hl : forall l : list string,
    (forall n, n ∈ l -> n ∈ names fs vd "case*.html") ->
    filename <$> omap (case_of fs base vd) l =
    filter (fun n => matching_case_file fs vd n = true) l).
  { induction l as [|n l IH]; intros Hin; [done|]. csimpl.
    pose proof (case_of_matching fs base vd n (Hin n ltac:(by left))) as Hm.
    rewrite filter_cons. destruct (case_of fs base vd n) as [r|] eqn:Hr.
    - rewrite decide_True by (apply Hm; by eexists). csimpl.
      rewrite (case_of_filename _ _ _ _ _ Hr), IH; [done|].
      intros n' Hn'. apply Hin. by right.
    - rewrite decide_False.
      + apply IH. intros n' Hn'. apply Hin. by right.
      + intros Hc. apply Hm in Hc as [? ?]. done. }
  rewrite Hl by done. unfold names. rewrite sorted_perm, list_filter_filter.
  apply reflexive_eq, list_filter_iff. intros n. unfold matching_case_file.
  rewrite !andb_true_iff. tauto.
Qed.

Lemma case_leb_total (a b : case_record) :
  case_leb a b = true \/ case_leb b a = true.
Proof. unfold case_leb. rewrite !N.leb_le. lia. Qed.

Lemma case_leb_trans (a b c : case_record) :
  case_leb a b = true -> case_leb b c = true -> case_leb a c = true.
Proof. unfold case_leb. rewrite !N.leb_le. lia. Qed.

Lemma sorted_cases_order (l : list case_record) :
  StronglySorted (fun a b => str_lt (filename a) (filename b)) l ->
  StronglySorted case_order (sorted case_leb l).
Proof.
  intros Hl.
  eapply StronglySorted_mono;
    [|by apply (sorted_stable case_leb _ case_leb_total case_leb_trans l Hl)].
  intros a b _ _ [Hab Hba]. unfold case_order, case_leb in *.
  rewrite N.leb_le in Hab, Hba.
  destruct (decide (case a = case b)) as [Heq|Hne]; [|left; lia].
  right. split; [done|]. apply Hba. lia.
Qed.

Lemma scan_cases_nonempty fs base vd :
  scan_cases fs base vd <> [] <-> exists f, matching_case_file fs vd f = true.
Proof.
  pose proof (scan_cases_files fs base vd) as Hperm. split.
  - destruct (scan_cases fs base vd) as [|r rs]; [done|]. intros _.
    exists (filename r).
    assert (Hin : filename r ∈ filename <$> r :: rs) by (csimpl; by left).
    rewrite Hperm in Hin. by apply list_elem_of_filter in Hin as [? _].
  - intros [f Hf] Hnil. rewrite Hnil in Hperm. csimpl in Hperm.
    assert (Hin : f ∈ filter (fun n => matching_case_file fs vd n = true) (listdir fs vd)).
    { apply list_elem_of_filter. split; [done|]. apply elem_of_listdir.
      unfold matching_case_file, is_file in Hf.
      destruct (lookup_path (vd ++ [f]) fs); [by eexists|done]. }
    rewrite <- Hperm in Hin. by apply elem_of_nil in Hin.
Qed.

(** What the outer loop stores for [n], in the terms of the source. *)
Lemma group_of_Some fs base n g :
  is_dir fs (base ++ [n]) = true ->
  Re.VIDEO_DIR_RE n = Some g ->
  (exists f, matching_case_file fs (base ++ [n]) f = true) ->
  group_of fs base n =
    Some (int g, sorted case_leb (scan_cases fs base (base ++ [n]))).
Proof.
  intros Hdir Hre Hf. apply (scan_cases_nonempty fs base) in Hf.
  unfold group_of. rewrite Hdir, Hre.
  by destruct (scan_cases fs base (base ++ [n])).
Qed.

Lemma is_dir_exists fs (p : Path) :
  is_dir fs p = true -> is_Some (lookup_path p fs).
Proof. unfold is_dir. destruct (lookup_path p fs); [by eexists|done]. Qed.

End ScanResult.

(** ** The footprint of the run on the file system *)

Section IoFacts.
Implicit Types (t fs : node) (p q : Path).

Lemma stat_nil t : stat t [] <> None.
Proof. unfold stat. simpl. by destruct t. Qed.

Lemma stat_cons_dir (m : gmap string node) (n : string) p :
  stat (Dir m) (n :: p) = stat_at (m !! n) p.
Proof. unfold stat, stat_at. simpl. by destruct (m !! n). Qed.

Lemma stat_cons_file (c : string) (n : string) p : stat (File c) (n :: p) = None.
Proof. done. Qed.

Lemma mkdir_parents_is_dir q t t' :
  mkdir_parents q t = inr t' -> stat t' [] = Some KDir.
Proof.
  destruct q as [|n q]; destruct t as [c|m]; simpl; try done.
  - by intros [= <-].
  - destruct (mkdir_parents q (default (Dir ∅) (m !! n))); [done|]. by intros [= <-].
Qed.

(** [mkdir] creates directories on the way to its target and touches
  nothing else. *)
Lemma mkdir_parents_stat q t t' p :
  mkdir_parents q t = inr t' ->
  stat t' p = stat t p \/
  (p `prefix_of` q /\ stat t p = None /\ stat t' p = Some KDir).
Proof.
  revert t t' p. induction q as [|n q IH]; intros t t' p; destruct t as [c|m]; simpl; try done.
  - intros [= <-]. by left.
  - destruct (mkdir_parents q (default (Dir ∅) (m !! n))) as [|c] eqn:Hq; [done|].
    intros [= <-]. destruct p as [|x p]; [by left|].
    rewrite !stat_cons_dir. destruct (decide (x = n)) as [->|Hne].
    + rewrite lookup_insert_eq. simpl.
      destruct (IH _ _ p Hq) as [Heq|(Hpre & Hnone & Hdir)].
      * destruct (m !! n) as [c0|] eqn:Hn; simpl in *; [by left|].
        destruct p as [|y p].
        -- right. split; [apply prefix_cons, prefix_nil|]. split; [done|].
           by apply mkdir_parents_is_dir in Hq.
        -- left. by rewrite Heq, stat_cons_dir, lookup_empty.
      * right. split; [by apply prefix_cons|]. split; [|done].
        destruct (m !! n); [done|done].
    + rewrite lookup_insert_ne by done. by left.
Qed.

(** The write puts a regular file at its target and touches nothing else. *)
Lemma write_text_stat q (text : string) (t : option node) t' p :
  write_text q text t = inr t' ->
  (p = q /\ stat t' p = Some (KFile text)) \/
  (p <> q /\ stat t' p = stat_at t p).
Proof.
  revert t t' p. induction q as [|n q IH]; intros t t' p; simpl.
  - intros Hw. assert (t' = File text /\ (forall y p', stat_at t (y :: p') = None))
      as [-> Hbelow].
    { destruct t as [[c|m]|]; try done; injection Hw as <-; by split. }
    destruct p as [|y p]; [by left|]. right. split; [done|]. by rewrite Hbelow.
  - destruct t as [[c|m]|]; try done.
    destruct (write_text q text (m !! n)) as [|c] eqn:Hq; [done|].
    intros [= <-]. destruct p as [|x p]; [by right|].
    rewrite stat_cons_dir. simpl. rewrite stat_cons_dir.
    destruct (decide (x = n)) as [->|Hne].
    + rewrite lookup_insert_eq. simpl.
      destruct (IH _ _ p Hq) as [[-> Hf]|[Hne Heq]]; [by left|].
      right. split; [congruence|done].
    + rewrite lookup_insert_ne by done. right. split; [congruence|done].
Qed.

End IoFacts.

(** * The statements of the specification *)

Section Statements.
Implicit Types (fs : node) (base : Path).

Lemma parent_prefix (p : Path) : exists t, p = parent p ++ t.
Proof.
  destruct p as [|x p] using rev_ind.
  - by exists [].
  - exists [x]. by rewrite parent_child.
Qed.

(** In a world where [os.stat] never fails, a base directory that does not
    exist, or that is not a directory, gives the empty mapping. *)
Lemma scan_missing_base_is_empty fs base :
  exists_ fs base = false \/ is_dir fs base = false ->
  scan_language fs base = ∅.
Proof.
  intros Hbase. rewrite scan_language_fold. unfold names, listdir.
  unfold exists_, is_dir in Hbase.
  destruct (lookup_path base fs) as [[c|m]|]; try done.
  by destruct Hbase.
Qed.

Lemma scan_case_os_raised (refuses : Path -> bool) fs base (e : error) (l : list Path) :
  foldl (scan_case_os refuses fs base) (inl e) l = inl e.
Proof. by induction l. Qed.

Lemma scan_video_os_raised (refuses : Path -> bool) fs base (e : error) (l : list Path) :
  foldl (scan_video_os refuses fs base) (inl e) l = inl e.
Proof. by induction l. Qed.

Lemma scan_cases_os_returns (refuses : Path -> bool) fs base (l : list Path)
    (acc res : list case_record) :
  foldl (scan_case_os refuses fs base) (inr acc) l = inr res ->
  res = foldl (scan_case fs base) acc l.
Proof.
  revert acc. induction l as [|html l IH]; intros acc; simpl.
  - by intros [= <-].
  - unfold scan_case, is_file_os. destruct (refuses html).
    + by rewrite scan_case_os_raised.
    + destruct (is_file fs html); simpl; [|apply IH].
      destruct (Re.CASE_FILE_RE (name html)); apply IH.
Qed.

Lemma scan_videos_os_returns (refuses : Path -> bool) fs base (l : list Path)
    (out res : gmap N (list case_record)) :
  foldl (scan_video_os refuses fs base) (inr out) l = inr res ->
  res = foldl (scan_video fs base) out l.
Proof.
  revert out. induction l as [|vd l IH]; intros out; simpl.
  - by intros [= <-].
  - unfold scan_video, is_dir_os. destruct (refuses vd).
    + by rewrite scan_video_os_raised.
    + destruct (is_dir fs vd); simpl; [|apply IH].
      destruct (Re.VIDEO_DIR_RE (name vd)); [|apply IH].
      destruct (scan_cases_os refuses fs base vd) as [e|cases] eqn:Hc.
      * by rewrite scan_video_os_raised.
      * apply scan_cases_os_returns in Hc. fold (scan_cases fs base vd) in Hc.
        rewrite <- Hc. destruct cases; apply IH.
Qed.

(** When the scan returns, it returns what it returns in a world where
    [os.stat] never fails. *)
Lemma scan_language_os_returns (refuses : Path -> bool) fs base
    (m : gmap N (list case_record)) :
  scan_language_os refuses fs base = inr m -> m = scan_language fs base.
Proof.
  unfold scan_language_os, scan_language, exists_os.
  destruct (refuses base); [done|].
  destruct (exists_ fs base); simpl; [|by intros [= <-]].
  apply scan_videos_os_returns.
Qed.

(** C6, as stated, fails: a base directory with a name of 300 letters does
    not exist, and asking whether it exists raises an error (the name is
    longer than a directory entry can be), which ends the scan. *)
Lemma missing_base_can_raise :
  ~ (forall (refuses : Path -> bool) fs base,
       exists_ fs base = false \/ is_dir fs base = false ->
       scan_language_os refuses fs base = inr ∅).
Proof.
  intros Hclaim.
  specialize (Hclaim (fun p => enametoolong p (Dir ∅)) (Dir ∅) [Samples.long_name]
                ltac:(left; vm_compute; reflexivity)).
  vm_compute in Hclaim. discriminate Hclaim.
Qed.

(** C6, amended. When the question whether [base_dir] exists gets an
    answer, and [base_dir] does not exist or is not a directory, the scan
    returns the empty mapping and raises nothing. When the question itself
    fails, the scan fails with that error. *)
Theorem scan_missing_base_when_stat_answers (refuses : Path -> bool) fs base :
  (refuses base = false ->
   exists_ fs base = false \/ is_dir fs base = false ->
   scan_language_os refuses fs base = inr ∅) /\
  (refuses base = true -> scan_language_os refuses fs base = inl OSError).
Proof.
  unfold scan_language_os, exists_os. split.
  - intros -> Hbase. destruct (exists_ fs base) eqn:Hex; [|done].
    destruct Hbase as [?|Hdir]; [done|].
    unfold glob, listdir. unfold is_dir in Hdir.
    by destruct (lookup_path base fs) as [[c|m]|].
  - by intros ->.
Qed.

Lemma scan_missing_base_when_stat_answers_witness :
  enametoolong ["nowhere"] Samples.fs_twins = false /\
  (exists_ Samples.fs_twins ["nowhere"] = false \/
   is_dir Samples.fs_twins ["nowhere"] = false) /\
  enametoolong ["notes"] Samples.fs_twins = false /\
  (exists_ Samples.fs_twins ["notes"] = false \/
   is_dir Samples.fs_twins ["notes"] = false) /\
  scan_language_os (fun p => enametoolong p Samples.fs_twins)
    Samples.fs_twins ["nowhere"] = inr ∅ /\
  scan_language_os (fun p => enametoolong p Samples.fs_twins)
    Samples.fs_twins ["notes"] = inr ∅.
Proof.
  split; [reflexivity|]. split; [left; reflexivity|].
  split; [reflexivity|]. split; [right; reflexivity|].
  split.
  - apply (proj1 (scan_missing_base_when_stat_answers
             (fun p => enametoolong p Samples.fs_twins) Samples.fs_twins ["nowhere"]));
      [reflexivity|left; reflexivity].
  - apply (proj1 (scan_missing_base_when_stat_answers
             (fun p => enametoolong p Samples.fs_twins) Samples.fs_twins ["notes"]));
      [reflexivity|right; reflexivity].
Defined.

(** C3. The records of a video group are in non-decreasing order of their
  case numbers; among equal case numbers they are in the lexicographic
  order of their file names; and there is one record for each matching
  file of the directory the group comes from, so that two files with the
  same case number both stay. *)
Theorem video_group_sorted_stable fs base v cases :
  scan_language fs base !! v = Some cases ->
  StronglySorted (fun a b => case a <= case b) cases /\
  StronglySorted case_order cases /\
  exists n,
    is_dir fs (base ++ [n]) = true /\
    filename <$> cases ≡ₚ
      filter (fun f => matching_case_file fs (base ++ [n]) f = true)
             (listdir fs (base ++ [n])).
Proof.
  intros Hv. apply scan_language_origin in Hv as (n & _ & Hg).
  apply group_of_inv in Hg as (Hdir & _ & _ & ->).
  assert (Hord : StronglySorted case_order
            (sorted case_leb (scan_cases fs base (base ++ [n]))))
    by apply sorted_cases_order, scan_cases_by_name.
  split; [|split; [done|]].
  - eapply StronglySorted_mono; [|exact Hord].
    intros a b _ _ [Hlt|[Heq _]]; lia.
  - exists n. split; [done|]. rewrite sorted_perm. apply scan_cases_files.
Qed.

Lemma video_group_sorted_stable_witness :
  let cases :=
    [ {| case := 1; filename := "case01.html"; relpath := "html/video1/case01.html" |};
      {| case := 1; filename := "case1.html"; relpath := "html/video1/case1.html" |};
      {| case := 3; filename := "case3.html"; relpath := "html/video1/case3.html" |} ] in
  scan_language Samples.fs_twins ["html"] !! 1 = Some cases /\
  StronglySorted case_order cases.
Proof.
  intros cases. assert (H : scan_language Samples.fs_twins ["html"] !! 1 = Some cases)
    by (vm_compute; reflexivity).
  split; [exact H|].
  exact (proj1 (proj2 (video_group_sorted_stable Samples.fs_twins ["html"] 1 cases H))).
Defined.

(** C4. The [relpath] of a record is the path of its file taken from the
  grandparent of [base_dir], its components joined by forward slashes. *)
Theorem relpath_from_grandparent fs base v cases r :
  scan_language fs base !! v = Some cases ->
  r ∈ cases ->
  exists n rel,
    is_file fs (base ++ [n; filename r]) = true /\
    parent (parent base) ++ rel = base ++ [n; filename r] /\
    relpath r = join "/" rel.
Proof.
  intros Hv Hr. apply scan_language_origin in Hv as (n & _ & Hg).
  apply group_of_inv in Hg as (_ & _ & _ & ->).
  apply elem_of_sorted in Hr. rewrite scan_cases_omap in Hr.
  apply list_elem_of_omap in Hr as (f & _ & Hf).
  pose proof (case_of_filename _ _ _ _ _ Hf) as Hname.
  unfold case_of in Hf. destruct (is_file fs ((base ++ [n]) ++ [f])) eqn:Hfile; [|done].
  destruct (Re.CASE_FILE_RE f) as [g|]; [|done]. injection Hf as <-. simpl in *.
  destruct (parent_prefix base) as [t1 Ht1].
  destruct (parent_prefix (parent base)) as [t2 Ht2].
  exists n, (t2 ++ t1 ++ [n; f]). rewrite <- app_assoc in Hfile. split; [done|].
  assert (Hhtml : base ++ [n; f] = parent (parent base) ++ t2 ++ t1 ++ [n; f]).
  { rewrite Ht1 at 1. rewrite Ht2 at 1. by rewrite <- !app_assoc. }
  split; [done|].
  unfold relative_to. rewrite <- app_assoc. simpl. rewrite Hhtml, drop_app_length.
  unfold as_posix. by destruct t2, t1.
Qed.

Lemma relpath_from_grandparent_witness :
  let r := {| case := 3; filename := "case3.html"; relpath := "html/video1/case3.html" |} in
  (exists cases, scan_language Samples.fs_twins ["html"] !! 1 = Some cases /\ r ∈ cases) /\
  exists n rel,
    is_file Samples.fs_twins (["html"] ++ [n; filename r]) = true /\
    parent (parent ["html"]) ++ rel = ["html"] ++ [n; filename r] /\
    relpath r = join "/" rel.
Proof.
  intros r.
  assert (H : scan_language Samples.fs_twins ["html"] !! 1 =
    Some [ {| case := 1; filename := "case01.html"; relpath := "html/video1/case01.html" |};
           {| case := 1; filename := "case1.html"; relpath := "html/video1/case1.html" |};
           r ]) by (vm_compute; reflexivity).
  assert (Hr : r ∈ [ {| case := 1; filename := "case01.html"; relpath := "html/video1/case01.html" |};
           {| case := 1; filename := "case1.html"; relpath := "html/video1/case1.html" |};
           r ]) by (right; right; left).
  split; [eexists; split; [exact H|exact Hr]|].
  exact (relpath_from_grandparent Samples.fs_twins ["html"] 1 _ r H Hr).
Defined.

Lemma render_videos_values (m : gmap N (list case_record)) :
  (render_videos m).*2 ≡ₚ (map_to_list m).*2.
Proof.
  unfold render_videos. rewrite <- list_fmap_compose.
  change (snd ∘ _) with (@snd N (list case_record)).
  by rewrite sorted_perm.
Qed.

Lemma render_videos_keys (m : gmap N (list case_record)) :
  exists ks : list N,
    (render_videos m).*1 = str <$> ks /\
    StronglySorted N.lt ks /\
    ks ≡ₚ (map_to_list m).*1.
Proof.
  exists ((sorted item_leb (map_to_list m)).*1). split; [|split].
  - unfold render_videos. by rewrite <- !list_fmap_compose.
  - assert (Hne : forall l : list (N * list case_record),
      NoDup l.*1 -> StronglySorted (fun a b => a.1 <> b.1) l).
    { induction l as [|x l IH]; csimpl; [constructor|].
      intros [Hx Hl]%NoDup_cons. constructor; [by apply IH|].
      rewrite Forall_forall. intros y Hy Heq. apply Hx. rewrite Heq.
      by apply list_elem_of_fmap_2. }
    apply (StronglySorted_fmap fst (fun a b => a.1 < b.1)); [done|].
    eapply StronglySorted_mono;
      [|apply (sorted_stable item_leb (fun a b => a.1 <> b.1));
        [| |apply Hne, NoDup_fst_map_to_list]].
    + intros a b _ _ [Hab Hba]. unfold item_leb in *.
      rewrite N.leb_le in Hab, Hba.
      destruct (decide (a.1 = b.1)) as [Heq|?]; [|lia].
      exfalso. apply Hba; [lia|done].
    + intros a b. unfold item_leb. rewrite !N.leb_le. lia.
    + intros a b c. unfold item_leb. rewrite !N.leb_le. lia.
  - by rewrite sorted_perm.
Qed.

(** C2. In the assembled document the count of each language is the sum
  of the lengths of the lists under that language's [videos]. *)
Theorem counts_match_videos (now : string) (a : args) fs :
  en (counts (assemble now a fs)) =
    sum_list (List.length <$> (en (videos (assemble now a fs))).*2) /\
  ja (counts (assemble now a fs)) =
    sum_list (List.length <$> (ja (videos (assemble now a fs))).*2).
Proof.
  simpl. unfold count_cases.
  split; apply sum_list_perm; by rewrite render_videos_values.
Qed.

(** C5. The keys of each [videos] object are the decimal numerals of the
  video numbers of the scan, in strictly increasing numeric order. With
  [video9] and [video10] the keys are "9" and then "10", although "10"
  comes first in the order of strings. *)
Theorem video_keys_numeric_order (now : string) :
  (forall (a : args) fs,
     (exists ks, (en (videos (assemble now a fs))).*1 = str <$> ks /\
        StronglySorted N.lt ks /\
        ks ≡ₚ (map_to_list (scan_language fs (joinpath (arg_root a) (arg_base_en a)))).*1) /\
     (exists ks, (ja (videos (assemble now a fs))).*1 = str <$> ks /\
        StronglySorted N.lt ks /\
        ks ≡ₚ (map_to_list (scan_language fs (joinpath (arg_root a) (arg_base_ja a)))).*1)) /\
  (en (videos (assemble now (default_args []) Samples.fs_nine_ten))).*1 = ["9"; "10"] /\
  str_lt "10" "9".
Proof.
  split; [|split].
  - intros a fs. simpl. split; apply render_videos_keys.
  - vm_compute. reflexivity.
  - reflexivity.
Qed.

(** C1, at the scenario of the specification: the run writes the document
  assembled from the tree; two records are found and counted, nothing for
  Japanese, and each [relpath] starts below [result], at [result_en],
  because the grandparent of [result/result_en/html] is [result] and not
  the root. *)
Theorem scenario_relpath_below_result (now : string) :
  let doc := assemble now (default_args ["repo"]) Samples.fs_scenario in
  (exists fs', main now NoFault (default_args ["repo"]) Samples.fs_scenario =
                 Wrote fs' doc "Wrote /repo/result/index.json") /\
  en (counts doc) = 2%nat /\
  ja (counts doc) = 0%nat /\
  ja (videos doc) = [] /\
  en (videos doc) =
    [("2", [ {| case := 1; filename := "case01.html";
                relpath := "result_en/html/video2/case01.html" |};
             {| case := 2; filename := "case2.html";
                relpath := "result_en/html/video2/case2.html" |} ])] /\
  en (videos doc) <>
    [("2", [ {| case := 1; filename := "case01.html";
                relpath := "result/result_en/html/video2/case01.html" |};
             {| case := 2; filename := "case2.html";
                relpath := "result/result_en/html/video2/case2.html" |} ])].
Proof.
  split; [eexists; vm_compute; reflexivity|].
  vm_compute. repeat split. discriminate.
Qed.

(** C7, at a directory whose case files are named in capitals: the pattern
  accepts both names, but the glob [case*.html] that feeds the loop does
  not, and the scan returns nothing. *)
Theorem capital_case_files_dropped :
  Re.CASE_FILE_RE "CASE1.HTML" = Some "1" /\
  Re.CASE_FILE_RE "Case2.Html" = Some "2" /\
  is_file Samples.fs_capitals ["html"; "video1"; "CASE1.HTML"] = true /\
  is_file Samples.fs_capitals ["html"; "video1"; "Case2.Html"] = true /\
  glob Samples.fs_capitals ["html"; "video1"] "case*.html" = [] /\
  scan_language Samples.fs_capitals ["html"] = ∅.
Proof.
  repeat split; vm_compute; reflexivity.
Qed.

(** C8, at a directory named [videos_video3]: the name is not of the form
    [video<digits>], yet the glob [video*] yields it, the pattern, applied
    with [search] and tied to the end of the name only, finds [video3] in
    it, and the scan stores its case file under video 3. *)
Lemma videos_video3_is_scanned :
  is_dir Samples.fs_odd_names ["html"; "videos_video3"] = true /\
  ~ strict_video_name "videos_video3" /\
  fnmatch "video*" "videos_video3" = true /\
  Re.VIDEO_DIR_RE "videos_video3" = Some "3" /\
  scan_language Samples.fs_odd_names ["html"] =
    {[ 3 := [ {| case := 1; filename := "case1.html";
                 relpath := "html/videos_video3/case1.html" |} ] ]}.
Proof.
  split; [reflexivity|]. split; [|split; [reflexivity|split; [reflexivity|]]].
  - intros (ds & Heq & _ & Hds). apply eat_exact in Heq.
    vm_compute in Heq. injection Heq as <-. discriminate Hds.
  - vm_compute. reflexivity.
Qed.

Lemma video_dir_group fs base d v :
  video_dir fs base d v <->
  d ∈ names fs base "video*" /\
  group_of fs base d = Some (v, sorted case_leb (scan_cases fs base (base ++ [d]))).
Proof.
  unfold video_dir, video_number. split.
  - intros (Hdir & Hnum & Hf).
    destruct (fnmatch "video*" d) eqn:Hpat; [|done].
    destruct (Re.VIDEO_DIR_RE d) as [g|] eqn:Hre; [|done].
    injection Hnum as <-. split.
    + apply elem_of_names. split; [done|]. by apply is_dir_exists.
    + by apply group_of_Some.
  - intros [[Hpat _]%elem_of_names Hg].
    apply group_of_inv in Hg as (Hdir & (g & Hre & ->) & Hne & _).
    rewrite Hpat, Hre. split; [done|]. split; [done|].
    by apply (scan_cases_nonempty fs base).
Qed.

Lemma group_of_cases fs base d v cases :
  group_of fs base d = Some (v, cases) ->
  cases = sorted case_leb (scan_cases fs base (base ++ [d])).
Proof. by intros (_ & _ & _ & ->)%group_of_inv. Qed.

(** The directory that sorts last among those of one number is the one
  whose records the result keeps. *)
Lemma last_video_dir_wins fs base d v :
  video_dir fs base d v ->
  (forall d', video_dir fs base d' v -> str_leb d' d = true) ->
  scan_language fs base !! v =
    Some (sorted case_leb (scan_cases fs base (base ++ [d]))).
Proof.
  intros [Hin Hg]%video_dir_group Hlast. rewrite scan_language_fold.
  pose proof (names_sorted fs base "video*") as Hsorted.
  destruct (list_elem_of_split _ _ Hin) as (l1 & l2 & Heq).
  rewrite Heq in Hsorted. rewrite Heq at 1.
  apply store_fold_last; [done|].
  intros e cases He Hge.
  apply StronglySorted_app_1_r, StronglySorted_inv in Hsorted as [_ Hall].
  rewrite Forall_forall in Hall. specialize (Hall e He).
  apply str_lt_not_leb in Hall. rewrite Hlast in Hall; [done|].
  apply video_dir_group. split.
  - rewrite Heq. apply elem_of_app. right. by right.
  - by rewrite Hge, (group_of_cases _ _ _ _ _ Hge).
Qed.

Lemma count_cases_lookup (m : gmap N (list case_record)) v cases :
  m !! v = Some cases ->
  count_cases m = (List.length cases + count_cases (delete v m))%nat.
Proof.
  intros Hv. unfold count_cases.
  rewrite <- (sum_list_perm _ _
    (fmap_Permutation List.length _ _
       (fmap_Permutation snd _ _ (map_to_list_delete m v cases Hv)))).
  done.
Qed.

Lemma length_sorted {A : Type} (le : A -> A -> bool) (l : list A) :
  List.length (sorted le l) = List.length l.
Proof. apply Permutation_length, sorted_perm. Qed.

Lemma append_inj_slash (a b x y : string) :
  slash_free a = true -> slash_free b = true ->
  a +:+ String "/" x = b +:+ String "/" y -> a = b.
Proof.
  revert b. induction a as [|c a IH]; intros [|d b]; simpl; try done.
  - intros _ [Hd _]%andb_true_iff [= <- _]. done.
  - intros [Hc _]%andb_true_iff _ [= -> _]. done.
  - intros [_ Ha]%andb_true_iff [_ Hb]%andb_true_iff [= -> Heq].
    f_equal. by apply IH.
Qed.

Lemma join_tail_inj (t : Path) (d1 f1 d2 f2 : string) :
  slash_free d1 = true -> slash_free d2 = true ->
  join "/" (t ++ [d1; f1]) = join "/" (t ++ [d2; f2]) -> d1 = d2.
Proof.
  intros H1 H2. induction t as [|x t IH]; simpl.
  - by apply append_inj_slash.
  - destruct t as [|y t]; simpl in *.
    + intros Heq%String.app_inj. apply IH. by injection Heq.
    + intros Heq%String.app_inj. apply IH. by injection Heq.
Qed.

Lemma case_of_relpath fs base d f r :
  case_of fs base (base ++ [d]) f = Some r ->
  relpath r = join "/" (relative_to base (parent (parent base)) ++ [d; f]).
Proof.
  unfold case_of. destruct (is_file fs ((base ++ [d]) ++ [f])); [|done].
  destruct (Re.CASE_FILE_RE f); [|done]. intros [= <-]. simpl.
  destruct (parent_prefix base) as [t1 Ht1].
  destruct (parent_prefix (parent base)) as [t2 Ht2].
  assert (Hbase : base = parent (parent base) ++ t2 ++ t1).
  { rewrite Ht1 at 1. rewrite Ht2 at 1. by rewrite <- app_assoc. }
  unfold relative_to. generalize dependent (parent (parent base)).
  intros gp _ ->. rewrite <- !app_assoc, !drop_app_length.
  rewrite <- !app_assoc. unfold as_posix. simpl. by destruct t2, t1.
Qed.

(** C10. Let two subdirectories of [base_dir] read as the same video
  number and hold matching case files, the second sorting after the
  first and last among the directories of that number. Then the entry of
  that number is the sorted case list of the second; every entry of the
  result is the case list of a directory other than the first; no record
  of the first is in any entry (names being free of separators); and the
  count of the result counts, for that number, the records of the second
  only. *)
Theorem same_number_last_directory_wins fs base d1 d2 v :
  video_dir fs base d1 v ->
  video_dir fs base d2 v ->
  str_lt d1 d2 ->
  (forall d, video_dir fs base d v -> str_leb d d2 = true) ->
  (forall d, d ∈ listdir fs base -> slash_free d = true) ->
  scan_language fs base !! v =
    Some (sorted case_leb (scan_cases fs base (base ++ [d2]))) /\
  (forall v' cases, scan_language fs base !! v' = Some cases ->
     exists d, d <> d1 /\ is_dir fs (base ++ [d]) = true /\
       cases = sorted case_leb (scan_cases fs base (base ++ [d]))) /\
  (forall r v' cases, r ∈ scan_cases fs base (base ++ [d1]) ->
     scan_language fs base !! v' = Some cases -> r ∉ cases) /\
  count_cases (scan_language fs base) =
    (List.length (scan_cases fs base (base ++ [d2])) +
     count_cases (delete v (scan_language fs base)))%nat.
Proof.
  intros Hd1 Hd2 Hlt Hlast Hslash.
  pose proof (last_video_dir_wins fs base d2 v Hd2 Hlast) as Hv.
  assert (Hne : d2 <> d1) by (intros ->; by apply str_lt_irrefl in Hlt).
  assert (Horigin : forall v' cases, scan_language fs base !! v' = Some cases ->
    exists d, d <> d1 /\ is_dir fs (base ++ [d]) = true /\
      d ∈ listdir fs base /\
      cases = sorted case_leb (scan_cases fs base (base ++ [d]))).
  { intros v' cases Hv'. destruct (decide (v' = v)) as [->|Hvv].
    - exists d2. destruct Hd2 as (Hdir & _ & _). split; [done|]. split; [done|].
      split; [by apply elem_of_listdir, is_dir_exists|]. congruence.
    - apply scan_language_origin in Hv' as (d & Hd & Hg).
      pose proof (group_of_cases _ _ _ _ _ Hg) as ->.
      exists d. split.
      + intros ->. apply video_dir_group in Hd1 as [_ Hg1]. congruence.
      + apply group_of_inv in Hg as (Hdir & _). split; [done|]. split; [|done].
        by apply elem_of_listdir, is_dir_exists. }
  split; [done|]. split; [|split].
  - intros v' cases Hv'. destruct (Horigin v' cases Hv') as (d & ? & ? & _ & ?).
    by exists d.
  - intros r v' cases Hr1 Hv' Hr.
    destruct (Horigin v' cases Hv') as (d & Hd & _ & Hin & ->).
    apply elem_of_sorted in Hr. rewrite scan_cases_omap in Hr1, Hr.
    apply list_elem_of_omap in Hr1 as (f1 & _ & Hf1).
    apply list_elem_of_omap in Hr as (f & _ & Hf).
    apply case_of_relpath in Hf1, Hf. rewrite Hf1 in Hf.
    apply Hd. symmetry. eapply join_tail_inj; [| |exact Hf].
    + apply Hslash. destruct Hd1 as (Hdir & _).
      by apply elem_of_listdir, is_dir_exists.
    + by apply Hslash.
  - rewrite (count_cases_lookup _ _ _ Hv). by rewrite length_sorted.
Qed.

Lemma same_number_last_directory_wins_witness :
  video_dir Samples.fs_same_number ["html"] "video01" 1 /\
  video_dir Samples.fs_same_number ["html"] "video1" 1 /\
  str_lt "video01" "video1" /\
  scan_language Samples.fs_same_number ["html"] !! 1 =
    Some (sorted case_leb
            (scan_cases Samples.fs_same_number ["html"] (["html"] ++ ["video1"]))) /\
  count_cases (scan_language Samples.fs_same_number ["html"]) =
    (List.length (scan_cases Samples.fs_same_number ["html"] (["html"] ++ ["video1"])) +
     count_cases (delete 1%N (scan_language Samples.fs_same_number ["html"])))%nat.
Proof.
  assert (H1 : video_dir Samples.fs_same_number ["html"] "video01" 1).
  { split; [reflexivity|]. split; [reflexivity|]. exists "case1.html". reflexivity. }
  assert (H2 : video_dir Samples.fs_same_number ["html"] "video1" 1).
  { split; [reflexivity|]. split; [reflexivity|]. exists "case7.html". reflexivity. }
  assert (Hlt : str_lt "video01" "video1") by reflexivity.
  assert (Hls : listdir Samples.fs_same_number ["html"] = ["video1"; "video01"])
    by (vm_compute; reflexivity).
  assert (Hlast : forall d, video_dir Samples.fs_same_number ["html"] d 1 ->
            str_leb d "video1" = true).
  { intros d (Hdir & _).
    pose proof (proj2 (elem_of_listdir Samples.fs_same_number ["html"] d)
                  (is_dir_exists _ _ Hdir)) as Hin.
    clear Hdir. rewrite Hls in Hin. rename Hin into Hdir.
    apply elem_of_cons in Hdir as [->|Hdir]; [reflexivity|].
    apply elem_of_cons in Hdir as [->|Hdir]; [reflexivity|].
    inversion Hdir. }
  assert (Hslash : forall d, d ∈ listdir Samples.fs_same_number ["html"] ->
            slash_free d = true).
  { intros d Hd. rewrite Hls in Hd.
    apply elem_of_cons in Hd as [->|Hd]; [reflexivity|].
    apply elem_of_cons in Hd as [->|Hd]; [reflexivity|].
    inversion Hd. }
  pose proof (same_number_last_directory_wins Samples.fs_same_number ["html"]
                "video01" "video1" 1 H1 H2 Hlt Hlast Hslash) as (Hv & _ & _ & Hcount).
  split; [exact H1|]. split; [exact H2|]. split; [exact Hlt|].
  split; [exact Hv|exact Hcount].
Defined.

(** C9, as stated, fails: with the index sent to a directory that does not
  exist yet, a run that stops in a scan has already created that
  directory, a path other than the one of the index. *)
Lemma failed_run_leaves_directory :
  ~ (forall (now : string) (f : fault) (a : args) fs (e : error) fs' (p : Path),
       main now f a fs = Raised e fs' ->
       p <> joinpath (arg_root a) (arg_out a) ->
       stat fs' p = stat fs p).
Proof.
  intros Hclaim.
  specialize (Hclaim EmptyString ScanFault Samples.args_new_out (Dir ∅) OSError
                (Dir {[ "site" := Dir ∅ ]}) ["site"]).
  assert (Hrun : main EmptyString ScanFault Samples.args_new_out (Dir ∅) =
                 Raised OSError (Dir {[ "site" := Dir ∅ ]}))
    by (vm_compute; reflexivity).
  specialize (Hclaim Hrun ltac:(discriminate)). discriminate Hclaim.
Qed.

(** C9, amended. After a run that fails, every path is as it was before,
  except that the path of the index may hold a regular file (whole or
  cut short), and that directories on the way to the parent of that path
  may have been created where there was nothing. *)
Theorem failed_run_footprint (now : string) (f : fault) (a : args) fs (e : error) fs' :
  main now f a fs = Raised e fs' ->
  forall p : Path,
    stat fs' p = stat fs p \/
    (p = joinpath (arg_root a) (arg_out a) /\ exists c, stat fs' p = Some (KFile c)) \/
    (p `prefix_of` parent (joinpath (arg_root a) (arg_out a)) /\
     stat fs p = None /\ stat fs' p = Some KDir).
Proof.
  unfold main. set (out_path := joinpath (arg_root a) (arg_out a)).
  destruct (mkdir_parents (parent out_path) fs) as [e0|fs1] eqn:Hmk.
  { intros [= _ <-] p. by left. }
  assert (Hfs1 : forall p, stat fs1 p = stat fs p \/
            (p `prefix_of` parent out_path /\ stat fs p = None /\ stat fs1 p = Some KDir))
    by (intros p; by apply mkdir_parents_stat).
  assert (Hwrite : forall text fs2 p,
    write_text out_path text (Some fs1) = inr fs2 ->
    stat fs2 p = stat fs p \/
    (p = out_path /\ exists c, stat fs2 p = Some (KFile c)) \/
    (p `prefix_of` parent out_path /\ stat fs p = None /\ stat fs2 p = Some KDir)).
  { intros text fs2 p Hw.
    destruct (write_text_stat _ _ _ _ p Hw) as [[-> Hf]|[Hne Heq]].
    - right. left. split; [done|]. by exists text.
    - simpl in Heq. destruct (Hfs1 p) as [H1|(Hpre & Hnone & Hdir)].
      + left. congruence.
      + right. right. split; [done|]. split; [done|]. congruence. }
  destruct f as [| |written].
  - destruct (write_text out_path _ (Some fs1)) as [e1|fs2] eqn:Hw; [|done].
    intros [= _ <-] p. destruct (Hfs1 p) as [?|?]; [by left|by right; right].
  - intros [= _ <-] p. destruct (Hfs1 p) as [?|?]; [by left|by right; right].
  - destruct (write_text out_path _ (Some fs1)) as [e1|fs2] eqn:Hw.
    + intros [= _ <-] p. destruct (Hfs1 p) as [?|?]; [by left|by right; right].
    + intros [= _ <-] p. by eapply Hwrite.
Qed.

Lemma failed_run_footprint_witness :
  main EmptyString (WriteFault 1) Samples.args_new_out (Dir ∅) =
    Raised OSError (Dir {[ "site" := Dir {[ "index.json" := File "{" ]} ]}) /\
  forall p : Path,
    stat (Dir {[ "site" := Dir {[ "index.json" := File "{" ]} ]}) p = stat (Dir ∅) p \/
    (p = ["site"; "index.json"] /\
     exists c, stat (Dir {[ "site" := Dir {[ "index.json" := File "{" ]} ]}) p
               = Some (KFile c)) \/
    (p `prefix_of` ["site"] /\ stat (Dir ∅) p = None /\
     stat (Dir {[ "site" := Dir {[ "index.json" := File "{" ]} ]}) p = Some KDir).
Proof.
  assert (Hrun : main EmptyString (WriteFault 1) Samples.args_new_out (Dir ∅) =
    Raised OSError (Dir {[ "site" := Dir {[ "index.json" := File "{" ]} ]}))
    by (vm_compute; reflexivity).
  split; [exact Hrun|].
  exact (failed_run_footprint _ _ _ _ _ _ Hrun).
Defined.

End Statements.


(** * Further properties of the scan and of the run *)

(** ** The scan reads file names two levels down, and nothing else *)

Section ScanExtensionality.
Implicit Types (fs : node) (base vd : Path).

Lemma omap_filter_Some {A B : Type} (f : A -> option B) (l : list A) :
  omap f l = omap f (filter (fun x => is_Some (f x)) l).
Proof.
  induction l as [|x l IH]; [done|]. rewrite filter_cons. csimpl.
  destruct (f x) as [y|] eqn:Hx.
  - rewrite decide_True by by eexists. csimpl. by rewrite Hx, IH.
  - rewrite decide_False by (intros [? ?]; done). done.
Qed.

Lemma omap_pointwise {A B : Type} (f g : A -> option B) (l : list A) :
  (forall x, f x = g x) -> omap f l = omap g l.
Proof.
  intros Hfg. induction l as [|x l IH]; [done|]. csimpl. by rewrite Hfg, IH.
Qed.

Lemma store_fold_filter {K : Type} `{Countable K} {V E : Type}
    (g : E -> option (K * V)) (out : gmap K V) (l : list E) :
  foldl (store g) out l = foldl (store g) out (filter (fun e => is_Some (g e)) l).
Proof.
  revert out. induction l as [|e l IH]; intros out; [done|].
  rewrite filter_cons. simpl. destruct (g e) as [kv|] eqn:He.
  - rewrite decide_True by by eexists. simpl. apply IH.
  - rewrite decide_False by (intros [? ?]; done).
    unfold store at 2. rewrite He. apply IH.
Qed.

Lemma store_fold_pointwise {K : Type} `{Countable K} {V E : Type}
    (g1 g2 : E -> option (K * V)) (out : gmap K V) (l : list E) :
  (forall e, g1 e = g2 e) -> foldl (store g1) out l = foldl (store g2) out l.
Proof.
  intros Hg. revert out. induction l as [|e l IH]; intros out; [done|].
  simpl. unfold store at 2 4. rewrite Hg. apply IH.
Qed.

Lemma StronglySorted_filter {A : Type} (R : A -> A -> Prop) (P : A -> Prop)
    `{forall x, Decision (P x)} (l : list A) :
  StronglySorted R l -> StronglySorted R (filter P l).
Proof.
  induction 1 as [|x l Hl IH Hx]; [constructor|].
  rewrite filter_cons. destruct (decide (P x)); [|done].
  constructor; [done|]. rewrite Forall_forall in Hx. rewrite Forall_forall.
  intros y [_ Hy]%list_elem_of_filter. by apply Hx.
Qed.

(** Two lists of names in increasing order with the same members are equal. *)
Lemma sorted_names_unique (l1 l2 : list string) :
  StronglySorted str_lt l1 -> StronglySorted str_lt l2 ->
  NoDup l1 -> NoDup l2 ->
  (forall n, n ∈ l1 <-> n ∈ l2) ->
  l1 = l2.
Proof.
  intros Hs1 Hs2 Hn1 Hn2 Hmem.
  apply (StronglySorted_unique_strong str_lt); [|done|done|by apply NoDup_Permutation].
  intros a b _ _ Hab Hba. destruct (str_lt_irrefl a). eauto using str_lt_trans.
Qed.

Lemma is_file_is_Some fs (p : Path) :
  is_file fs p = true -> is_Some (lookup_path p fs).
Proof. unfold is_file. destruct (lookup_path p fs); [by eexists|done]. Qed.

Lemma is_file_parent_dir fs (p : Path) (f : string) :
  is_file fs (p ++ [f]) = true -> is_dir fs p = true.
Proof.
  unfold is_file, is_dir. rewrite lookup_path_child.
  by destruct (lookup_path p fs) as [[c|m]|].
Qed.

Lemma case_of_is_file fs base vd (n : string) :
  is_Some (case_of fs base vd n) -> is_file fs (vd ++ [n]) = true.
Proof.
  unfold case_of. destruct (is_file fs (vd ++ [n])); [done|]. by intros [? ?].
Qed.

Lemma scan_cases_ext fs1 fs2 base vd :
  (forall f, is_file fs1 (vd ++ [f]) = is_file fs2 (vd ++ [f])) ->
  scan_cases fs1 base vd = scan_cases fs2 base vd.
Proof.
  intros Hfiles.
  assert (Hcase : forall n, case_of fs1 base vd n = case_of fs2 base vd n).
  { intros n. unfold case_of. by rewrite Hfiles. }
  rewrite !scan_cases_omap.
  rewrite (omap_filter_Some _ (names fs1 vd _)), (omap_filter_Some _ (names fs2 vd _)).
  rewrite (omap_pointwise _ _ _ Hcase). f_equal.
  apply sorted_names_unique.
  - apply StronglySorted_filter, names_sorted.
  - apply StronglySorted_filter, names_sorted.
  - apply NoDup_filter, NoDup_names.
  - apply NoDup_filter, NoDup_names.
  - intros n. rewrite !list_elem_of_filter, !elem_of_names, Hcase. split.
    + intros (Hc & Hpat & _). split; [done|]. split; [done|].
      by apply is_file_is_Some, (case_of_is_file fs2 base).
    + intros (Hc & Hpat & _). split; [done|]. split; [done|].
      apply is_file_is_Some. rewrite Hfiles. by apply (case_of_is_file fs2 base).
Qed.

Lemma group_of_is_dir fs base (d : string) :
  is_Some (group_of fs base d) -> is_dir fs (base ++ [d]) = true.
Proof.
  unfold group_of. destruct (is_dir fs (base ++ [d])); [done|]. by intros [? ?].
Qed.

Lemma group_of_ext fs1 fs2 base (d : string) :
  (forall f, is_file fs1 (base ++ [d; f]) = is_file fs2 (base ++ [d; f])) ->
  group_of fs1 base d = group_of fs2 base d.
Proof.
  intros Hfiles.
  assert (Hfiles' : forall f, is_file fs1 ((base ++ [d]) ++ [f]) =
                              is_file fs2 ((base ++ [d]) ++ [f])).
  { intros f. rewrite <- !app_assoc. apply Hfiles. }
  assert (Hdir : forall fs, scan_cases fs base (base ++ [d]) <> [] ->
                   is_dir fs (base ++ [d]) = true).
  { intros fs [f Hf]%scan_cases_nonempty. unfold matching_case_file in Hf.
    apply andb_true_iff in Hf as [[Hf _]%andb_true_iff _].
    by apply is_file_parent_dir in Hf. }
  pose proof (scan_cases_ext fs1 fs2 base (base ++ [d]) Hfiles') as Hcases.
  pose proof (Hdir fs1) as Hd1. pose proof (Hdir fs2) as Hd2.
  unfold group_of. rewrite <- Hcases in Hd2 |- *.
  destruct (scan_cases fs1 base (base ++ [d])) as [|r rs].
  - destruct (is_dir fs1 (base ++ [d])), (is_dir fs2 (base ++ [d]));
      by destruct (Re.VIDEO_DIR_RE d).
  - by rewrite Hd1, Hd2.
Qed.

End ScanExtensionality.

Section ScanExtensionalityStatement.
Implicit Types (fs : node) (base : Path).

(** The scan depends on the tree only through the question which paths
    two levels below [base_dir] are regular files: two trees that agree on
    it give the same mapping, whatever the files hold and whatever else the
    trees contain. *)
Theorem scan_reads_file_names_only fs1 fs2 base :
  (forall d f : string,
     is_file fs1 (base ++ [d; f]) = is_file fs2 (base ++ [d; f])) ->
  scan_language fs1 base = scan_language fs2 base.
Proof.
  intros Hfiles.
  assert (Hgroup : forall d, group_of fs1 base d = group_of fs2 base d)
    by (intros d; by apply group_of_ext).
  rewrite !scan_language_fold.
  rewrite (store_fold_filter _ _ (names fs1 base _)),
          (store_fold_filter _ _ (names fs2 base _)).
  rewrite (store_fold_pointwise _ _ _ _ Hgroup). f_equal.
  apply sorted_names_unique.
  - apply StronglySorted_filter, names_sorted.
  - apply StronglySorted_filter, names_sorted.
  - apply NoDup_filter, NoDup_names.
  - apply NoDup_filter, NoDup_names.
  - intros d. rewrite !list_elem_of_filter, !elem_of_names, Hgroup. split.
    + intros (Hg & Hpat & _). split; [done|]. split; [done|].
      by apply is_dir_exists, group_of_is_dir.
    + intros (Hg & Hpat & _). split; [done|]. split; [done|].
      apply is_dir_exists, group_of_is_dir. by rewrite Hgroup.
Qed.

Lemma scan_reads_file_names_only_witness :
  (forall d f : string,
     is_file Samples.fs_twins (["html"] ++ [d; f]) =
     is_file Samples.fs_twins_moved (["html"] ++ [d; f])) /\
  scan_language Samples.fs_twins ["html"] =
  scan_language Samples.fs_twins_moved ["html"].
Proof.
  assert (H : forall d f : string,
     is_file Samples.fs_twins (["html"] ++ [d; f]) =
     is_file Samples.fs_twins_moved (["html"] ++ [d; f])).
  { intros d f. unfold is_file. rewrite !lookup_path_app. reflexivity. }
  split; [exact H|].
  exact (scan_reads_file_names_only Samples.fs_twins Samples.fs_twins_moved ["html"] H).
Defined.

End ScanExtensionalityStatement.

(** ** The run, step by step *)

Section RunFacts.
Implicit Types (t fs : node) (p q : Path) (o : option node).

Lemma is_file_stat fs p :
  is_file fs p = match stat fs p with Some (KFile _) => true | _ => false end.
Proof. unfold is_file, stat. by destruct (lookup_path p fs) as [[c|m]|]. Qed.

Lemma stat_at_Some_dir o (n : string) p :
  stat_at o (n :: p) <> None -> exists m, o = Some (Dir m).
Proof. destruct o as [[c|m]|]; try done. by exists m. Qed.

(** What lies below a path that is there is below a directory. *)
Lemma stat_prefix_dir o p (k : Path) :
  k <> [] -> stat_at o (p ++ k) <> None -> stat_at o p = Some KDir.
Proof.
  revert o. induction p as [|n p IH]; intros o Hk Hs; simpl in *.
  - destruct k as [|x k]; [done|].
    by destruct (stat_at_Some_dir _ _ _ Hs) as [m ->].
  - destruct (stat_at_Some_dir _ _ _ Hs) as [m ->]. simpl in *.
    rewrite stat_cons_dir in Hs |- *. by apply IH.
Qed.

Lemma mkdir_parents_is_file q t t' p :
  mkdir_parents q t = inr t' -> is_file t' p = is_file t p.
Proof.
  intros Hmk. rewrite !is_file_stat.
  destruct (mkdir_parents_stat _ _ _ p Hmk) as [->|(_ & -> & ->)]; done.
Qed.

Lemma mkdir_parents_target q t t' :
  mkdir_parents q t = inr t' -> stat t' q = Some KDir.
Proof.
  revert t t'. induction q as [|n q IH]; intros t t'.
  - apply mkdir_parents_is_dir.
  - destruct t as [c|m]; simpl; [done|].
    destruct (mkdir_parents q (default (Dir ∅) (m !! n))) as [|c] eqn:Hq; [done|].
    intros [= <-]. rewrite stat_cons_dir, lookup_insert_eq. simpl. by eapply IH.
Qed.

(** [exist_ok]: nothing changes when the directory is there already. *)
Lemma mkdir_parents_exists q t :
  stat t q = Some KDir -> mkdir_parents q t = inr t.
Proof.
  revert t. induction q as [|n q IH]; intros t Hs.
  - destruct t; [done|done].
  - destruct t as [c|m]; [done|]. rewrite stat_cons_dir in Hs. simpl.
    destruct (m !! n) as [c|] eqn:Hn; [|done]. simpl in *.
    rewrite (IH c Hs). by rewrite insert_id.
Qed.

(** [mkdir] fails on a regular file in its way, and only then. *)
Lemma mkdir_parents_error q t (e : error) :
  mkdir_parents q t = inl e ->
  (e = FileExistsError \/ e = NotADirectoryError) /\
  exists p c, p `prefix_of` q /\ stat t p = Some (KFile c).
Proof.
  revert t. induction q as [|n q IH]; intros t; destruct t as [c|m]; simpl; try done.
  - intros [= <-]. split; [by left|]. exists [], c. split; [apply prefix_nil|done].
  - intros [= <-]. split; [by right|]. exists [], c. split; [apply prefix_nil|done].
  - destruct (mkdir_parents q (default (Dir ∅) (m !! n))) as [e'|] eqn:Hq; [|done].
    intros [= <-]. destruct (IH _ Hq) as (He & p & c & Hpre & Hs).
    split; [done|]. exists (n :: p), c. split; [by apply prefix_cons|].
    rewrite stat_cons_dir. destruct (m !! n) as [c0|]; simpl in *; [done|].
    destruct p; [done|]. by rewrite stat_cons_dir, lookup_empty in Hs.
Qed.

(** The write fails on a directory at its target, and only then, once the
    parent of the target is a directory. *)
Lemma write_text_error p (x : string) (text : string) o (e : error) :
  write_text (p ++ [x]) text o = inl e ->
  stat_at o p = Some KDir ->
  e = IsADirectoryError /\ stat_at o (p ++ [x]) = Some KDir.
Proof.
  revert o. induction p as [|n p IH]; intros o Hw Hs.
  - destruct o as [[c|m]|]; try done. cbn [app stat_at] in *.
    rewrite stat_cons_dir. cbn [write_text] in Hw.
    destruct (m !! x) as [[c|m']|]; try done. by injection Hw as <-.
  - destruct (stat_at_Some_dir o n p) as [m ->]; [by rewrite Hs|].
    cbn [stat_at] in *. rewrite <- app_comm_cons, stat_cons_dir.
    rewrite stat_cons_dir in Hs. rewrite <- app_comm_cons in Hw.
    cbn [write_text] in Hw.
    destruct (write_text (p ++ [x]) text (m !! n)) as [e'|] eqn:Hq; [|done].
    injection Hw as <-. by apply IH.
Qed.

Lemma write_text_not_dir q (text : string) o t' :
  write_text q text o = inr t' -> stat_at o q <> Some KDir.
Proof.
  revert o t'. induction q as [|n q IH]; intros o t'; cbn [write_text].
  - by destruct o as [[c|m]|].
  - destruct o as [[c|m]|]; try done. cbn [stat_at]. rewrite stat_cons_dir.
    destruct (write_text q text (m !! n)) as [|c] eqn:Hq; [done|].
    intros _. by eapply IH.
Qed.

(** Whether the write succeeds does not depend on the text. *)
Lemma write_text_any q (text1 text2 : string) o t' :
  write_text q text1 o = inr t' -> exists t'', write_text q text2 o = inr t''.
Proof.
  revert o t'. induction q as [|n q IH]; intros o t'; simpl.
  - destruct o as [[c|m]|]; try done; by eexists.
  - destruct o as [[c|m]|]; try done.
    destruct (write_text q text1 (m !! n)) as [|c] eqn:Hq; [done|].
    intros _. destruct (IH _ _ Hq) as [c' ->]. by eexists.
Qed.

(** A second write at the same place acts as if the first had not been. *)
Lemma write_text_again q (text1 text2 : string) o t' :
  write_text q text1 o = inr t' ->
  write_text q text2 (Some t') = write_text q text2 o.
Proof.
  revert o t'. induction q as [|n q IH]; intros o t'; simpl.
  - destruct o as [[c|m]|]; try done; by intros [= <-].
  - destruct o as [[c|m]|]; try done.
    destruct (write_text q text1 (m !! n)) as [|c] eqn:Hq; [done|].
    intros [= <-]. rewrite lookup_insert_eq, (IH _ _ Hq).
    destruct (write_text q text2 (m !! n)); [done|]. by rewrite insert_insert_eq.
Qed.

Lemma write_text_is_file q (text : string) t t' p :
  write_text q text (Some t) = inr t' -> p <> q -> is_file t' p = is_file t p.
Proof.
  intros Hw Hne. rewrite !is_file_stat.
  destruct (write_text_stat _ _ _ _ p Hw) as [[? _]|[_ ->]]; done.
Qed.

Lemma prefix_snoc_not (p : Path) (x : string) : ~ (p ++ [x]) `prefix_of` p.
Proof.
  intros Hpre%prefix_length. rewrite length_app in Hpre. simpl in Hpre. lia.
Qed.

End RunFacts.

(** ** The run as a whole *)

Section RunStatements.
Implicit Types (fs : node) (a : args) (now : string).

Lemma assemble_after_mkdir now a (q : Path) fs fs1 :
  mkdir_parents q fs = inr fs1 -> assemble now a fs1 = assemble now a fs.
Proof.
  intros Hmk. unfold assemble.
  rewrite !(scan_reads_file_names_only fs1 fs); [done| |];
    intros d f; by eapply mkdir_parents_is_file.
Qed.

Lemma assemble_after_write now a (text : string) fs1 fs2 :
  out_of_scan a ->
  write_text (joinpath (arg_root a) (arg_out a)) text (Some fs1) = inr fs2 ->
  assemble now a fs2 = assemble now a fs1.
Proof.
  intros Hout Hw. unfold assemble.
  rewrite !(scan_reads_file_names_only fs2 fs1); [done| |];
    intros d f; (eapply write_text_is_file; [exact Hw|]);
    intros Heq; by destruct (Hout d f).
Qed.

(** A run on a tree where the directories of the index are in place is a
    run on the tree from which they were made. *)
Lemma rerun_over_mkdir now a fs fs1 :
  mkdir_parents (parent (joinpath (arg_root a) (arg_out a))) fs = inr fs1 ->
  main now NoFault a fs1 = main now NoFault a fs.
Proof.
  intros Hmk. unfold main.
  rewrite (mkdir_parents_exists _ fs1 (mkdir_parents_target _ _ _ Hmk)), Hmk.
  done.
Qed.

Lemma rerun_over_write now a (text : string) fs fs1 fs2 :
  out_of_scan a ->
  mkdir_parents (parent (joinpath (arg_root a) (arg_out a))) fs = inr fs1 ->
  write_text (joinpath (arg_root a) (arg_out a)) text (Some fs1) = inr fs2 ->
  main now NoFault a fs2 = main now NoFault a fs.
Proof.
  intros Hout Hmk Hw.
  assert (Hmk2 : mkdir_parents (parent (joinpath (arg_root a) (arg_out a))) fs2
                 = inr fs2).
  { apply mkdir_parents_exists.
    pose proof (mkdir_parents_target _ _ _ Hmk) as Hdir.
    destruct (joinpath (arg_root a) (arg_out a)) as [|x q _] using rev_ind.
    - pose proof (mkdir_parents_is_dir _ _ _ Hmk) as Hroot.
      cbn [write_text] in Hw. by destruct fs1 as [c|m].
    - rewrite parent_child in *.
      destruct (write_text_stat _ _ _ _ q Hw) as [[Heq _]|[_ ->]]; [|done].
      exfalso. apply (prefix_snoc_not q x). rewrite <- Heq. done. }
  unfold main. rewrite Hmk2, Hmk.
  rewrite (assemble_after_write now a text fs1 fs2 Hout Hw).
  rewrite (write_text_again _ _ _ _ _ Hw).
  by destruct (write_text_any _ _
       (Json.dumps 0 (Json.of_payload (assemble now a fs1))) _ _ Hw) as [t ->].
Qed.

(** A run that meets no input/output fault and succeeds writes the
    document that describes the tree as it was before the run (creating
    the directories of the index first changes nothing in it); the file of
    the index holds the text of that document, whatever was there before;
    every other path is as before, but for the directories created on the
    way to the index. *)
Theorem successful_run_writes_document now a fs fs' (doc : payload) (s : string) :
  main now NoFault a fs = Wrote fs' doc s ->
  doc = assemble now a fs /\
  s = "Wrote " +:+ path_str (joinpath (arg_root a) (arg_out a)) /\
  stat fs' (joinpath (arg_root a) (arg_out a)) =
    Some (KFile (Json.dumps 0 (Json.of_payload doc))) /\
  forall p : Path, p <> joinpath (arg_root a) (arg_out a) ->
    stat fs' p = stat fs p \/
    (p `prefix_of` parent (joinpath (arg_root a) (arg_out a)) /\
     stat fs p = None /\ stat fs' p = Some KDir).
Proof.
  unfold main.
  destruct (mkdir_parents _ fs) as [e0|fs1] eqn:Hmk; [done|].
  destruct (write_text _ _ (Some fs1)) as [e1|fs2] eqn:Hw; [done|].
  intros [= <- <- <-]. rewrite (assemble_after_mkdir now a _ fs fs1 Hmk) in *.
  split; [done|]. split; [done|]. split.
  - by destruct (write_text_stat _ _ _ _ (joinpath (arg_root a) (arg_out a)) Hw)
      as [[_ ?]|[? _]].
  - intros p Hp. destruct (write_text_stat _ _ _ _ p Hw) as [[? _]|[_ ->]]; [done|].
    by apply mkdir_parents_stat.
Qed.

Lemma successful_run_writes_document_witness :
  exists fs' doc s,
    main EmptyString NoFault Samples.args_new_out (Dir ∅) = Wrote fs' doc s /\
    doc = assemble EmptyString Samples.args_new_out (Dir ∅) /\
    stat fs' ["site"; "index.json"] =
      Some (KFile (Json.dumps 0 (Json.of_payload doc))).
Proof.
  eexists _, _, _.
  assert (H : forall o, o = main EmptyString NoFault Samples.args_new_out (Dir ∅) ->
              main EmptyString NoFault Samples.args_new_out (Dir ∅) = o)
    by (by intros ? ->).
  split; [apply H; vm_compute; reflexivity|].
  match goal with
  | |- ?d = _ /\ stat ?t _ = _ =>
      pose proof (successful_run_writes_document EmptyString Samples.args_new_out
                    (Dir ∅) t d _ (H _ ltac:(vm_compute; reflexivity)))
        as (Hdoc & _ & Hfile & _)
  end.
  split; [exact Hdoc|exact Hfile].
Defined.

(** A regular file in the way of the directories of the index, or a
    directory at the path of the index, makes the run fail, whatever else
    happens to it, and the run leaves the tree as it was: the program never
    replaces a file by a directory, nor a directory by the index. *)
Theorem obstacle_fails_cleanly now (f : fault) a fs :
  (exists (p : Path) (c : string),
     p `prefix_of` parent (joinpath (arg_root a) (arg_out a)) /\
     stat fs p = Some (KFile c)) \/
  stat fs (joinpath (arg_root a) (arg_out a)) = Some KDir ->
  exists e : error, main now f a fs = Raised e fs.
Proof.
  unfold main. intros [(p & c & [k Hk] & Hfile)|Hdir].
  - destruct (mkdir_parents _ fs) as [e0|fs1] eqn:Hmk; [by exists e0|].
    exfalso.
    assert (Hp : stat fs1 p = Some KDir).
    { pose proof (mkdir_parents_target _ _ _ Hmk) as Ht. rewrite Hk in Ht.
      destruct k as [|y k]; [by rewrite app_nil_r in Ht|].
      apply (stat_prefix_dir (Some fs1) p (y :: k)); [done|].
      cbn [stat_at]. by rewrite Ht. }
    destruct (mkdir_parents_stat _ _ _ p Hmk) as [Heq|(_ & Hnone & _)]; congruence.
  - assert (Hparent : stat fs (parent (joinpath (arg_root a) (arg_out a))) = Some KDir).
    { destruct (joinpath (arg_root a) (arg_out a)) as [|x q _] using rev_ind; [done|].
      rewrite parent_child. apply (stat_prefix_dir (Some fs) q [x]); [done|].
      cbn [stat_at]. by rewrite Hdir. }
    rewrite (mkdir_parents_exists _ _ Hparent).
    assert (Hw : forall text, exists e,
              write_text (joinpath (arg_root a) (arg_out a)) text (Some fs) = inl e).
    { intros text. destruct (write_text _ text (Some fs)) as [e|t] eqn:Hw; [by exists e|].
      by apply write_text_not_dir in Hw. }
    destruct f as [| |written].
    + destruct (Hw (Json.dumps 0 (Json.of_payload (assemble now a fs)))) as [e ->].
      by exists e.
    + by exists OSError.
    + destruct (Hw (String.substring 0 written
                      (Json.dumps 0 (Json.of_payload (assemble now a fs))))) as [e ->].
      by exists e.
Qed.

Lemma obstacle_fails_cleanly_witness :
  stat Samples.fs_twins ["html"] = Some KDir /\
  exists e : error,
    main EmptyString NoFault
      {| arg_root := []; arg_base_en := Relative ["html"];
         arg_base_ja := Relative ["ja"]; arg_out := Relative ["html"] |}
      Samples.fs_twins = Raised e Samples.fs_twins.
Proof.
  assert (H : stat Samples.fs_twins ["html"] = Some KDir) by reflexivity.
  split; [exact H|].
  exact (obstacle_fails_cleanly EmptyString NoFault
           {| arg_root := []; arg_base_en := Relative ["html"];
              arg_base_ja := Relative ["ja"]; arg_out := Relative ["html"] |}
           Samples.fs_twins (or_intror H)).
Defined.

Lemma out_of_scan_new_out : out_of_scan Samples.args_new_out.
Proof. intros d f. split; discriminate. Qed.

(** After a run that failed, for whatever reason and at whatever step, a
    new run behaves exactly as it would have on the tree before the failed
    run, provided the index is not written where the scans look. *)
Theorem rerun_after_failure now now' (f : fault) a fs (e : error) fs' :
  main now f a fs = Raised e fs' ->
  out_of_scan a ->
  main now' NoFault a fs' = main now' NoFault a fs.
Proof.
  intros Hrun Hout. unfold main in Hrun.
  destruct (mkdir_parents _ fs) as [e0|fs1] eqn:Hmk.
  { by injection Hrun as _ <-. }
  destruct f as [| |written].
  - destruct (write_text _ _ (Some fs1)) as [e1|fs2] eqn:Hw; [|done].
    injection Hrun as _ <-. by apply rerun_over_mkdir.
  - injection Hrun as _ <-. by apply rerun_over_mkdir.
  - destruct (write_text _ _ (Some fs1)) as [e1|fs2] eqn:Hw.
    + injection Hrun as _ <-. by apply rerun_over_mkdir.
    + injection Hrun as _ <-. by eapply rerun_over_write.
Qed.

Lemma rerun_after_failure_witness :
  main EmptyString (WriteFault 1) Samples.args_new_out (Dir ∅) =
    Raised OSError (Dir {[ "site" := Dir {[ "index.json" := File "{" ]} ]}) /\
  out_of_scan Samples.args_new_out /\
  main "later" NoFault Samples.args_new_out
    (Dir {[ "site" := Dir {[ "index.json" := File "{" ]} ]}) =
  main "later" NoFault Samples.args_new_out (Dir ∅).
Proof.
  assert (Hrun : main EmptyString (WriteFault 1) Samples.args_new_out (Dir ∅) =
    Raised OSError (Dir {[ "site" := Dir {[ "index.json" := File "{" ]} ]}))
    by (vm_compute; reflexivity).
  split; [exact Hrun|]. split; [exact out_of_scan_new_out|].
  exact (rerun_after_failure _ "later" _ _ _ _ _ Hrun out_of_scan_new_out).
Defined.

(** Running again on the tree a successful run has left gives the same
    tree and the same document when the clock shows the same time, and
    with another time a document that differs in [generated_at] only;
    again provided the index is not written where the scans look. *)
Theorem rerun_is_idempotent now a fs fs' (doc : payload) (s : string) :
  main now NoFault a fs = Wrote fs' doc s ->
  out_of_scan a ->
  main now NoFault a fs' = Wrote fs' doc s /\
  forall now', exists fs'',
    main now' NoFault a fs' =
    Wrote fs'' {| generated_at := now'; base := base doc;
                  counts := counts doc; videos := videos doc |} s.
Proof.
  intros Hrun Hout. pose proof Hrun as Hrun'. unfold main in Hrun'.
  destruct (mkdir_parents _ fs) as [e0|fs1] eqn:Hmk; [done|].
  destruct (write_text _ _ (Some fs1)) as [e1|fs2] eqn:Hw; [done|].
  injection Hrun' as <- <- <-.
  assert (Hre : forall now', main now' NoFault a fs2 = main now' NoFault a fs)
    by (intros now'; by eapply rerun_over_write).
  split; [by rewrite Hre|].
  intros now'. rewrite Hre. unfold main. rewrite Hmk.
  destruct (write_text_any _ _
    (Json.dumps 0 (Json.of_payload (assemble now' a fs1))) _ _ Hw) as [t ->].
  by exists t.
Qed.

Lemma rerun_is_idempotent_witness :
  exists fs' doc s,
    main EmptyString NoFault Samples.args_new_out (Dir ∅) = Wrote fs' doc s /\
    out_of_scan Samples.args_new_out /\
    main EmptyString NoFault Samples.args_new_out fs' = Wrote fs' doc s.
Proof.
  assert (H : forall o, o = main EmptyString NoFault Samples.args_new_out (Dir ∅) ->
              main EmptyString NoFault Samples.args_new_out (Dir ∅) = o)
    by (by intros ? ->).
  eexists _, _, _.
  split; [apply H; vm_compute; reflexivity|].
  split; [exact out_of_scan_new_out|].
  match goal with
  | |- main _ _ _ ?t = Wrote _ ?d ?s =>
      exact (proj1 (rerun_is_idempotent EmptyString Samples.args_new_out (Dir ∅) t d s
               (H _ ltac:(vm_compute; reflexivity)) out_of_scan_new_out))
  end.
Defined.

End RunStatements.

(** ** The document and the scan results *)

Section DocumentStatements.
Implicit Types (fs : node) (a : args) (now : string) (m : gmap N (list case_record)).

Lemma elem_of_render_videos m (k : string) (cases : list case_record) :
  (k, cases) ∈ render_videos m <-> exists v, k = str v /\ m !! v = Some cases.
Proof.
  unfold render_videos. rewrite list_elem_of_fmap. split.
  - intros ([v cs] & [= -> ->] & Hin). apply elem_of_sorted, elem_of_map_to_list in Hin.
    by exists v.
  - intros (v & -> & Hv). exists (v, cases). split; [done|].
    by apply elem_of_sorted, elem_of_map_to_list.
Qed.

Lemma NoDup_render_videos_keys m : NoDup (render_videos m).*1.
Proof.
  destruct (render_videos_keys m) as (ks & -> & _ & Hperm).
  apply (NoDup_fmap_2 str). rewrite Hperm. apply NoDup_fst_map_to_list.
Qed.

(** Each [videos] object holds exactly the entries of the scan it was made
    from, the list of a video under the numeral of its number, and no key
    twice. *)
Theorem videos_hold_the_scan now a fs :
  (forall (k : string) (cases : list case_record),
     (k, cases) ∈ en (videos (assemble now a fs)) <->
     exists v, k = str v /\
       scan_language fs (joinpath (arg_root a) (arg_base_en a)) !! v = Some cases) /\
  (forall (k : string) (cases : list case_record),
     (k, cases) ∈ ja (videos (assemble now a fs)) <->
     exists v, k = str v /\
       scan_language fs (joinpath (arg_root a) (arg_base_ja a)) !! v = Some cases) /\
  NoDup (en (videos (assemble now a fs))).*1 /\
  NoDup (ja (videos (assemble now a fs))).*1.
Proof.
  simpl. split; [|split; [|split]].
  - intros k cases. apply elem_of_render_videos.
  - intros k cases. apply elem_of_render_videos.
  - apply NoDup_render_videos_keys.
  - apply NoDup_render_videos_keys.
Qed.

Lemma scan_entry_nonempty fs (base : Path) (v : N) (cases : list case_record) :
  scan_language fs base !! v = Some cases -> cases <> [].
Proof.
  intros (n & _ & Hg)%scan_language_origin.
  apply group_of_inv in Hg as (_ & _ & Hne & ->).
  intros Hnil%sorted_nil_inv. done.
Qed.

Lemma count_zero_iff fs (base : Path) :
  count_cases (scan_language fs base) = 0%nat <->
  render_videos (scan_language fs base) = [].
Proof.
  unfold count_cases.
  rewrite <- (sum_list_perm _ _
    (fmap_Permutation List.length _ _ (render_videos_values (scan_language fs base)))).
  assert (Hne : forall kv, kv ∈ render_videos (scan_language fs base) -> kv.2 <> []).
  { intros [k cs] (v & _ & Hv)%elem_of_render_videos. by eapply scan_entry_nonempty. }
  destruct (render_videos (scan_language fs base)) as [|[k cs] l]; [done|].
  split; [|done]. csimpl. intros Hsum.
  destruct cs as [|r cs]; [|done]. by destruct (Hne (k, []) ltac:(left)).
Qed.

(** No list in the document is empty: a video directory without a
    matching case file leaves no key. Hence the count of a language is
    zero exactly when its [videos] object is empty. *)
Theorem no_empty_video_list now a fs :
  Forall (fun kv => kv.2 <> []) (en (videos (assemble now a fs))) /\
  Forall (fun kv => kv.2 <> []) (ja (videos (assemble now a fs))) /\
  (en (counts (assemble now a fs)) = 0%nat <-> en (videos (assemble now a fs)) = []) /\
  (ja (counts (assemble now a fs)) = 0%nat <-> ja (videos (assemble now a fs)) = []).
Proof.
  simpl. split; [|split; [|split]].
  - rewrite Forall_forall. intros [k cs] (v & _ & Hv)%elem_of_render_videos.
    by eapply scan_entry_nonempty.
  - rewrite Forall_forall. intros [k cs] (v & _ & Hv)%elem_of_render_videos.
    by eapply scan_entry_nonempty.
  - apply count_zero_iff.
  - apply count_zero_iff.
Qed.

End DocumentStatements.

(** ** Numbers and numerals *)

Section NumeralStatements.
#[local] Arguments String.append !_ _ / : simpl nomatch.

Lemma list_ascii_of_string_app (s r : string) :
  list_ascii_of_string (s +:+ r) = list_ascii_of_string s ++ list_ascii_of_string r.
Proof. induction s as [|c s IH]; simpl; [done|]. by rewrite IH. Qed.

Lemma int_snoc (s : string) (d : ascii) :
  int (s +:+ String d EmptyString) = 10 * int s + digit_value d.
Proof.
  unfold int. rewrite list_ascii_of_string_app, fold_left_app. done.
Qed.

Lemma pretty_N_go_app (x : N) (s : string) :
  pretty_N_go x s = pretty_N_go x EmptyString +:+ s.
Proof.
  revert s. induction (N.lt_wf_0 x) as [x _ IH]; intros s.
  destruct (decide (x = 0)) as [->|Hx]; [by rewrite !pretty_N_go_0|].
  assert (Hlt : x `div` 10 < x) by (apply N.div_lt; lia).
  rewrite !(pretty_N_go_step x) by lia.
  rewrite (IH _ Hlt (String (pretty_N_char (x `mod` 10)) s)).
  rewrite (IH _ Hlt (String (pretty_N_char (x `mod` 10)) EmptyString)).
  by rewrite append_assoc.
Qed.

Lemma digit_value_pretty_char (k : N) : k < 10 -> digit_value (pretty_N_char k) = k.
Proof.
  intros Hk.
  assert (k = 0 \/ k = 1 \/ k = 2 \/ k = 3 \/ k = 4 \/ k = 5 \/ k = 6 \/ k = 7
          \/ k = 8 \/ k = 9) as Hcases by lia.
  repeat (destruct Hcases as [->|Hcases]; [reflexivity|]). by subst.
Qed.

Lemma is_digit_pretty_char (k : N) : is_digit (pretty_N_char k) = true.
Proof. unfold pretty_N_char. by repeat case_match. Qed.

Lemma int_pretty_N_go (x : N) : int (pretty_N_go x EmptyString) = x.
Proof.
  induction (N.lt_wf_0 x) as [x _ IH].
  destruct (decide (x = 0)) as [->|Hx]; [done|].
  rewrite pretty_N_go_step, pretty_N_go_app, int_snoc by lia.
  rewrite IH by (apply N.div_lt; lia).
  rewrite digit_value_pretty_char by (apply N.mod_lt; lia).
  symmetry. apply N.div_mod'.
Qed.

Lemma all_digits_app (s r : string) :
  all_digits (s +:+ r) = all_digits s && all_digits r.
Proof. induction s as [|c s IH]; simpl; [done|]. by rewrite IH, andb_assoc. Qed.

Lemma all_digits_pretty_N_go (x : N) : all_digits (pretty_N_go x EmptyString) = true.
Proof.
  induction (N.lt_wf_0 x) as [x _ IH].
  destruct (decide (x = 0)) as [->|Hx]; [done|].
  rewrite pretty_N_go_step, pretty_N_go_app, all_digits_app by lia.
  rewrite IH by (apply N.div_lt; lia). simpl. by rewrite is_digit_pretty_char.
Qed.

(** The key written for a video is a run of decimal digits that reads
    back as the number of the video; and a numeral reads the same with a
    zero in front, which is why [video01] and [video1], or [case01.html]
    and [case1.html], share a number. *)
Theorem numeral_round_trip :
  (forall n : N, int (str n) = n /\ all_digits (str n) = true /\ str n <> EmptyString) /\
  (forall ds : string, int (String "0" ds) = int ds).
Proof.
  split; [|done]. intros n. unfold str, pretty, pretty_N.
  destruct (decide (n = 0)) as [->|Hn]; [done|].
  split; [apply int_pretty_N_go|]. split; [apply all_digits_pretty_N_go|].
  rewrite pretty_N_go_step by lia. rewrite pretty_N_go_app.
  by destruct (pretty_N_go (n `div` 10) EmptyString).
Qed.

End NumeralStatements.

(** ** The names of case files *)

Section CaseNameStatements.
Implicit Types (s r lit : string) (fs : node).
#[local] Arguments String.append !_ _ / : simpl nomatch.

Lemma eat_fold lit s r :
  eat true lit s = Some r <-> exists c, s = c +:+ r /\ same_letters lit c = true.
Proof.
  revert s. induction lit as [|a lit IH]; intros s; simpl.
  - split.
    + intros [= ->]. by exists EmptyString.
    + intros ([|b c] & -> & Hc); [done|done].
  - destruct s as [|b s].
    + split; [done|]. intros ([|b c] & Hs & Hc); [done|]. simpl in Hs. done.
    + destruct (Ascii.eqb (lower a) (lower b)) eqn:Hab.
      * rewrite IH. split.
        -- intros (c & -> & Hc). exists (String b c). simpl. by rewrite Hab.
        -- intros ([|b' c] & Hs & Hc); [done|]. simpl in Hs. injection Hs as <- ->.
           apply andb_true_iff in Hc as [_ Hc]. by exists c.
      * split; [done|]. intros ([|b' c] & Hs & Hc); [done|]. simpl in Hs.
        injection Hs as <- ->. by rewrite Hab in Hc.
Qed.

Lemma same_letters_dot_no_digit (h r : string) :
  same_letters ".html" h = true -> no_digit_ahead (h +:+ r).
Proof.
  destruct h as [|x h]; [done|]. simpl. intros [Hx _]%andb_true_iff.
  revert Hx. unfold eq_char.
  destruct x as [[] [] [] [] [] [] [] []]; by vm_compute.
Qed.

Lemma CASE_FILE_RE_at_spec s g :
  Re.CASE_FILE_RE_at s = Some g <->
  exists c h nl,
    s = c +:+ (g +:+ (h +:+ nl)) /\
    same_letters "case" c = true /\ same_letters ".html" h = true /\
    g <> EmptyString /\ all_digits g = true /\
    (nl = EmptyString \/ nl = newline).
Proof.
  unfold Re.CASE_FILE_RE_at, Re.digits_then. split.
  - destruct (eat true "case" s) as [r|] eqn:Heat; [|done].
    apply eat_fold in Heat as (c & -> & Hc).
    destruct (span_digits_spec r) as (Hr & Hds & _).
    destruct (span_digits r) as [ds r2]; simpl in Hr, Hds.
    destruct ds as [|d ds]; [done|].
    destruct (eat true ".html" r2) as [e|] eqn:Heat2; [|done].
    destruct (Re.at_dollar e) eqn:He; [|done]. intros [= <-].
    apply eat_fold in Heat2 as (h & -> & Hh). apply at_dollar_spec in He.
    exists c, h, e. by rewrite Hr.
  - intros (c & h & nl & -> & Hc & Hh & Hg & Hds & Hnl).
    assert (Heat : eat true "case" (c +:+ (g +:+ (h +:+ nl))) = Some (g +:+ (h +:+ nl)))
      by (apply eat_fold; by exists c).
    rewrite Heat.
    rewrite span_digits_app by (done || by apply same_letters_dot_no_digit).
    assert (Heat2 : eat true ".html" (h +:+ nl) = Some nl)
      by (apply eat_fold; by exists h).
    rewrite Heat2. apply at_dollar_spec in Hnl. rewrite Hnl. by destruct g.
Qed.

Lemma fnmatch_html s : fnmatch ".html" s = true <-> s = ".html".
Proof.
  split; [|by intros ->]. intros Hs.
  repeat (destruct s as [|? s]; [done|];
          apply andb_true_iff in Hs as [->%Ascii.eqb_eq Hs]).
  by destruct s.
Qed.

Lemma fnmatch_star_html s :
  fnmatch "*.html" s = true <-> exists mid, s = mid +:+ ".html".
Proof.
  split.
  - induction s as [|c s IH].
    + intros Hs. by vm_compute in Hs.
    + change (fnmatch "*.html" (String c s))
        with (fnmatch ".html" (String c s) || fnmatch "*.html" s).
      intros [Hs|Hs]%orb_true_iff.
      * apply fnmatch_html in Hs. by exists EmptyString.
      * destruct (IH Hs) as [mid ->]. by exists (String c mid).
  - intros [mid ->]. induction mid as [|c mid IH]; [done|].
    change (fnmatch "*.html" (String c mid +:+ ".html"))
      with (fnmatch ".html" (String c (mid +:+ ".html"))
            || fnmatch "*.html" (mid +:+ ".html")).
    rewrite IH. apply orb_true_r.
Qed.

Lemma fnmatch_case_html s :
  fnmatch "case*.html" s = true <-> exists mid, s = "case" +:+ (mid +:+ ".html").
Proof.
  split.
  - intros Hs.
    do 4 (destruct s as [|? s]; [done|];
          apply andb_true_iff in Hs as [->%Ascii.eqb_eq Hs]).
    apply fnmatch_star_html in Hs as [mid ->]. by exists mid.
  - intros [mid ->]. apply (proj2 (fnmatch_star_html (mid +:+ ".html"))).
    by exists mid.
Qed.

Lemma last_char_app s r :
  r <> EmptyString -> last_char (s +:+ r) = last_char r.
Proof.
  intros Hr. induction s as [|c s IH]; simpl; [done|].
  rewrite IH. destruct (s +:+ r) eqn:Hsr; [|done].
  destruct s; [done|done].
Qed.

Lemma html_name_no_newline (mid x : string) :
  mid +:+ ".html" <> x +:+ newline.
Proof.
  intros Heq. assert (Hl : last_char (mid +:+ ".html") = last_char (x +:+ newline))
    by by rewrite Heq.
  rewrite !last_char_app in Hl by done. done.
Qed.

(** The two filters of the inner loop let a name through exactly when it
    is a [case_name]; the group the pattern returns is a run of digits the
    name has at that place. *)
Lemma case_filters_group (n g : string) :
  fnmatch "case*.html" n = true -> Re.CASE_FILE_RE n = Some g -> case_name n g.
Proof.
  intros [mid Hmid]%fnmatch_case_html Hre. split; [by exists mid|].
  apply search_Some in Hre as (pre & suf & -> & Hat).
  apply CASE_FILE_RE_at_spec in Hat as (c & h & nl & -> & Hc & Hh & Hg & Hds & [->| ->]).
  - exists pre, c, h. by rewrite append_nil_r.
  - exfalso. apply (html_name_no_newline ("case" +:+ mid) (pre +:+ (c +:+ (g +:+ h)))).
    rewrite (append_assoc "case" mid), <- Hmid.
    by rewrite (append_assoc pre), (append_assoc c), (append_assoc g).
Qed.

(** The test the inner loop applies to an entry, spelled out. *)
Lemma case_file_filter fs (vd : Path) (n : string) :
  matching_case_file fs vd n = true <->
  is_file fs (vd ++ [n]) = true /\ exists g, case_name n g.
Proof.
  unfold matching_case_file. rewrite !andb_true_iff, bool_decide_eq_true. split.
  - intros [[Hfile Hpat] [g Hre]]. split; [done|]. exists g.
    by apply case_filters_group.
  - intros [Hfile (g & [mid Hmid] & pre & c & h & -> & Hc & Hh & Hg & Hds)].
    split; [split; [done|]|].
    + apply fnmatch_case_html. by exists mid.
    + apply search_is_Some. exists g. apply CASE_FILE_RE_at_spec.
      exists c, h, EmptyString. rewrite append_nil_r. by repeat split; auto.
Qed.

Lemma record_case_number fs (base : Path) (v : N) (cases : list case_record)
    (r : case_record) :
  scan_language fs base !! v = Some cases ->
  r ∈ cases ->
  exists g, case_name (filename r) g /\ case r = int g.
Proof.
  intros (d & _ & Hg)%scan_language_origin Hr.
  apply group_of_inv in Hg as (_ & _ & _ & ->).
  apply elem_of_sorted in Hr. rewrite scan_cases_omap in Hr.
  apply list_elem_of_omap in Hr as (n & [Hpat _]%elem_of_names & Hn).
  unfold case_of in Hn. destruct (is_file fs ((base ++ [d]) ++ [n])); [|done].
  destruct (Re.CASE_FILE_RE n) as [g|] eqn:Hre; [|done]. injection Hn as <-.
  exists g. split; [|done]. by apply case_filters_group.
Qed.

(** For an entry with an ASCII name, the list [cases] built for a video
    directory holds a record of that name if and only if the entry is a
    regular file whose name starts with [case], ends with [.html], both as
    written, and ends with [case], one or more digits and [.html], these
    two words in any letter case. *)
Theorem ascii_case_file_recorded_iff fs (base vd : Path) (n : string) :
  is_ascii n = true ->
  (exists rec : case_record, rec ∈ scan_cases fs base vd /\ filename rec = n) <->
  is_file fs (vd ++ [n]) = true /\ exists g, case_name n g.
Proof.
  intros _. rewrite <- case_file_filter, scan_cases_omap. split.
  - intros (rec & (n' & Hn' & Hc)%list_elem_of_omap & Hname).
    rewrite (case_of_filename _ _ _ _ _ Hc) in Hname. subst n'.
    apply (case_of_matching fs base vd n Hn'). by exists rec.
  - intros Hm.
    assert (Hn : n ∈ names fs vd "case*.html").
    { apply elem_of_names. unfold matching_case_file in Hm.
      apply andb_true_iff in Hm as [[Hfile Hpat]%andb_true_iff _].
      split; [done|]. by apply is_file_is_Some. }
    destruct (proj2 (case_of_matching fs base vd n Hn) Hm) as [rec Hrec].
    exists rec. split; [|by eapply case_of_filename].
    apply list_elem_of_omap. by exists n.
Qed.

Lemma ascii_case_file_recorded_iff_witness :
  is_ascii "case01.html" = true /\
  ((exists rec : case_record,
      rec ∈ scan_cases Samples.fs_twins ["html"] ["html"; "video1"] /\
      filename rec = "case01.html") <->
   is_file Samples.fs_twins (["html"; "video1"] ++ ["case01.html"]) = true /\
   exists g, case_name "case01.html" g).
Proof.
  split; [reflexivity|].
  apply (ascii_case_file_recorded_iff Samples.fs_twins ["html"] ["html"; "video1"]
           "case01.html").
  reflexivity.
Defined.

(** Every record of a scan result whose file name is ASCII carries a name
    of that form, and its case number is the number its digits spell. *)
Theorem ascii_record_case_number fs (base : Path) (v : N)
    (cases : list case_record) (r : case_record) :
  scan_language fs base !! v = Some cases ->
  r ∈ cases ->
  is_ascii (filename r) = true ->
  exists g, case_name (filename r) g /\ case r = int g.
Proof. intros Hv Hr _. by eapply record_case_number. Qed.

Lemma ascii_record_case_number_witness :
  let r := {| case := 1; filename := "case01.html";
              relpath := "html/video1/case01.html" |} in
  (exists cases, scan_language Samples.fs_twins ["html"] !! 1 = Some cases /\ r ∈ cases) /\
  is_ascii (filename r) = true /\
  exists g, case_name (filename r) g /\ case r = int g.
Proof.
  intros r.
  assert (H : scan_language Samples.fs_twins ["html"] !! 1 =
    Some [ r;
           {| case := 1; filename := "case1.html"; relpath := "html/video1/case1.html" |};
           {| case := 3; filename := "case3.html"; relpath := "html/video1/case3.html" |} ])
    by (vm_compute; reflexivity).
  assert (Hr : r ∈ [ r;
           {| case := 1; filename := "case1.html"; relpath := "html/video1/case1.html" |};
           {| case := 3; filename := "case3.html"; relpath := "html/video1/case3.html" |} ])
    by left.
  assert (Ha : is_ascii (filename r) = true) by reflexivity.
  split; [eexists; split; [exact H|exact Hr]|]. split; [exact Ha|].
  exact (ascii_record_case_number Samples.fs_twins ["html"] 1 _ r H Hr Ha).
Defined.

End CaseNameStatements.

(** ** Moving the tree *)

Section RelocationStatements.
Implicit Types (fs : node) (base : Path).

Lemma relative_to_below base (k : Path) :
  relative_to (base ++ k) (parent (parent base)) =
  relative_to base (parent (parent base)) ++ k.
Proof.
  destruct (parent_prefix base) as [t1 Ht1].
  destruct (parent_prefix (parent base)) as [t2 Ht2].
  assert (Hbase : base = parent (parent base) ++ t2 ++ t1).
  { rewrite Ht1 at 1. rewrite Ht2 at 1. by rewrite <- app_assoc. }
  unfold relative_to. generalize dependent (parent (parent base)).
  intros gp _ ->. by rewrite <- !app_assoc, !drop_app_length, <- !app_assoc.
Qed.

(** The mapping depends on the subtree found at [base_dir] and on the last
    two components of the path of [base_dir], and on nothing else: the
    same subtree under another root, reached through the same two last
    directories, gives the same mapping, [relpath] included. *)
Theorem scan_is_relocatable fs1 fs2 base1 base2 :
  lookup_path base1 fs1 = lookup_path base2 fs2 ->
  relative_to base1 (parent (parent base1)) =
    relative_to base2 (parent (parent base2)) ->
  scan_language fs1 base1 = scan_language fs2 base2.
Proof.
  intros Htree Hrel.
  assert (Hlook : forall q, lookup_path (base1 ++ q) fs1 = lookup_path (base2 ++ q) fs2)
    by (intros q; by rewrite !lookup_path_app, Htree).
  assert (Hnames : forall q pat, names fs1 (base1 ++ q) pat = names fs2 (base2 ++ q) pat)
    by (intros q pat; unfold names, listdir; by rewrite Hlook).
  assert (Hcase : forall d n,
    case_of fs1 base1 (base1 ++ [d]) n = case_of fs2 base2 (base2 ++ [d]) n).
  { intros d n. unfold case_of, is_file.
    rewrite <- !app_assoc, Hlook, !relative_to_below, Hrel. done. }
  assert (Hgroup : forall d, group_of fs1 base1 d = group_of fs2 base2 d).
  { intros d. unfold group_of, is_dir. rewrite Hlook, !scan_cases_omap, Hnames.
    by rewrite (omap_pointwise _ _ _ (Hcase d)). }
  rewrite !scan_language_fold.
  rewrite <- (app_nil_r base1), <- (app_nil_r base2) at 2.
  rewrite Hnames, !app_nil_r. by apply store_fold_pointwise.
Qed.

Lemma scan_is_relocatable_witness :
  lookup_path ["repo"; "result"; "result_en"; "html"] Samples.fs_scenario =
    lookup_path ["result"; "result_en"; "html"] Samples.fs_scenario_at_root /\
  relative_to ["repo"; "result"; "result_en"; "html"]
      (parent (parent ["repo"; "result"; "result_en"; "html"])) =
    relative_to ["result"; "result_en"; "html"]
      (parent (parent ["result"; "result_en"; "html"])) /\
  scan_language Samples.fs_scenario ["repo"; "result"; "result_en"; "html"] =
  scan_language Samples.fs_scenario_at_root ["result"; "result_en"; "html"].
Proof.
  assert (H1 : lookup_path ["repo"; "result"; "result_en"; "html"] Samples.fs_scenario =
    lookup_path ["result"; "result_en"; "html"] Samples.fs_scenario_at_root)
    by reflexivity.
  assert (H2 : relative_to ["repo"; "result"; "result_en"; "html"]
      (parent (parent ["repo"; "result"; "result_en"; "html"])) =
    relative_to ["result"; "result_en"; "html"]
      (parent (parent ["result"; "result_en"; "html"]))) by reflexivity.
  split; [exact H1|]. split; [exact H2|].
  exact (scan_is_relocatable _ _ _ _ H1 H2).
Defined.

End RelocationStatements.
